(** * The orientation-field engine of the AITA toolbox (aita.py)

    A shallow embedding of the array transforms of class [aita]:
    construction, [crop], [fliplr], [rot180], [filter], [mean_grain], the
    boundary-healing loop of [craft], the orientation tensor of [plotpdf]
    and the sample count and angle of [misorientation_profile].

    numpy arrays of floats are lists of rows of IEEE-754 binary64 values
    (the kernel's primitive floats, whose single [nan] is numpy's NaN);
    an index outside an array is Python's IndexError, modelled by [None].
    The algebraic laws of the angle maps are also read in exact real
    arithmetic, in module [Exact] below. *)

From Stdlib Require Import ZArith Lia Floats Reals Lra.
From stdpp Require Import base list sorting.

Set Warnings "-inexact-float".

(** ** Python exceptions *)

(** The exceptions the modelled lines can raise.  The last two are the
    error kinds the specification names; no line of aita.py raises them. *)
Inductive exn : Set :=
  | IndexError
  | ValueError
  | LinAlgError
  | HealingDidNotConverge
  | EmptySampleSet.

Inductive result (A : Type) : Type :=
  | Ok (a : A)
  | Raise (e : exn).
Arguments Ok {A} a.
Arguments Raise {A} e.

(** ** binary64 arithmetic as numpy uses it *)

Module F64.

(** [math.pi], the binary64 nearest to pi. *)
Definition math_pi : float := 0x1.921fb54442d18p+1%float.

(** [np.isnan]. *)
Definition np_isnan (x : float) : bool := is_nan x.

(** C's [fmod]: the exact remainder of the truncated division, with the
    sign of the dividend.  Both operands are put on the smaller of the
    two exponents, where the remainder is an integer remainder. *)
Definition fmod (a b : float) : float :=
  match Prim2SF a, Prim2SF b with
  | S754_nan, _ | _, S754_nan => nan
  | S754_infinity _, _ => nan
  | _, S754_zero _ => nan
  | S754_zero _, _ => a
  | S754_finite _ _ _, S754_infinity _ => a
  | S754_finite sa ma ea, S754_finite _ mb eb =>
      let e := Z.min ea eb in
      let A := (Zpos ma * 2 ^ (ea - e))%Z in
      let B := (Zpos mb * 2 ^ (eb - e))%Z in
      SF2Prim (binary_normalize prec emax (cond_Zopp sa (A mod B)) e sa)
  end.

(** [np.mod] on floats (numpy's [npy_remainder]): [fmod], moved by one
    divisor when its sign differs from the divisor's; a zero remainder
    takes the divisor's sign. *)
Definition np_mod (a b : float) : float :=
  let r := fmod a b in
  if (b =? 0)%float then r
  else if (r =? 0)%float then (if (b <? 0)%float then (-0)%float else 0%float)
  else if negb (Bool.eqb (b <? 0)%float (r <? 0)%float) then (r + b)%float
  else r.

(** A Python int used where numpy wants a float64. *)
Definition of_Z (i : Z) : float :=
  match i with
  | Z0 => 0%float
  | Zpos _ => SF2Prim (binary_normalize prec emax i 0 false)
  | Zneg _ => SF2Prim (binary_normalize prec emax i 0 false)
  end.

(** Python's [int(x)] on a float: truncation toward zero; NaN raises
    ValueError (and an infinity OverflowError, folded into it here). *)
Definition py_int (x : float) : option Z :=
  match Prim2SF x with
  | S754_zero _ => Some 0%Z
  | S754_finite s m e =>
      Some (cond_Zopp s (match e with
                         | Zneg p => Zpos m / 2 ^ Zpos p
                         | _ => Zpos m * 2 ^ e
                         end))%Z
  | _ => None
  end.

End F64.

(** ** Two-dimensional arrays *)

Abbreviation array2 := (list (list float)).

(** [a[r, c]]: [None] is IndexError. *)
Definition get2 (a : array2) (r c : nat) : option float :=
  match a !! r with
  | Some row => row !! c
  | None => None
  end.

(** [a[r, c] = v] in place: [None] is IndexError. *)
Definition set2 (a : array2) (r c : nat) (v : float) : option array2 :=
  match a !! r with
  | Some row =>
      if decide (c < length row) then Some (<[r := <[c := v]> row]> a) else None
  | None => None
  end.

(** [np.shape(a) == (nr, nc)]. *)
Definition shape (a : array2) (nr nc : nat) : Prop :=
  length a = nr /\ Forall (fun row => length row = nc) a.

(** [np.where(p(a))]: the positions that satisfy [p], in row-major order. *)
Fixpoint where_row (p : float -> bool) (r c : nat) (row : list float)
  : list (nat * nat) :=
  match row with
  | [] => []
  | x :: t => (if p x then [(r, c)] else []) ++ where_row p r (S c) t
  end.

Fixpoint where_from (p : float -> bool) (r : nat) (a : array2)
  : list (nat * nat) :=
  match a with
  | [] => []
  | row :: t => where_row p r 0 row ++ where_from p (S r) t
  end.

Definition np_where (p : float -> bool) (a : array2) : list (nat * nat) :=
  where_from p 0 a.

(** [a[idx] = v] for an index list [idx] obtained from [np.where]. *)
Fixpoint assign (a : array2) (idx : list (nat * nat)) (v : float)
  : option array2 :=
  match idx with
  | [] => Some a
  | (r, c) :: t =>
      match set2 a r c v with
      | Some a' => assign a' t v
      | None => None
      end
  end.

(** [a[idx]]: the values at the positions of [idx], as a flat array. *)
Fixpoint take_at (a : array2) (idx : list (nat * nat)) : option (list float) :=
  match idx with
  | [] => Some []
  | (r, c) :: t =>
      match get2 a r c, take_at a t with
      | Some v, Some vs => Some (v :: vs)
      | _, _ => None
      end
  end.

(** [np.fliplr] and [np.flipud]. *)
Definition np_fliplr (a : array2) : array2 := map reverse a.
Definition np_flipud (a : array2) : array2 := reverse a.

(** Python's slice [l[lo:hi]]: negative bounds count from the end, and
    both bounds are clipped to the length. *)
Definition py_slice {A : Type} (l : list A) (lo hi : Z) : list A :=
  let n := Z.of_nat (length l) in
  let norm i := if (i <? 0)%Z then Z.max 0 (i + n) else Z.min i n in
  take (Z.to_nat (norm hi - norm lo)) (drop (Z.to_nat (norm lo)) l).

(** [a[ymin:ymax, xmin:xmax]]. *)
Definition slice2 (a : array2) (ymin ymax xmin xmax : Z) : array2 :=
  map (fun row => py_slice row xmin xmax) (py_slice a ymin ymax).

(** [np.nanmax] over the flattened array: NaN when every entry is NaN,
    ValueError ([None]) on an array of size zero. *)
Definition np_nanmax (l : list float) : option float :=
  match l with
  | [] => None
  | _ => Some (fold_left
                 (fun acc x =>
                    if is_nan x then acc
                    else if is_nan acc then x
                    else if (acc <? x)%float then x else acc)
                 l nan)
  end.

(** [np.nanmean]: NaN entries count as zero in the sum and are left out of
    the count; the mean of no value is 0/0, NaN.  The sum runs left to
    right (numpy's pairwise order can round differently on long arrays). *)
Definition np_nanmean (l : list float) : float :=
  let tot := fold_left (fun acc x => (acc + (if is_nan x then 0 else x))%float) l 0%float in
  let cnt := length (List.filter (fun x => negb (is_nan x)) l) in
  (tot / F64.of_Z (Z.of_nat cnt))%float.

(** ** The [aita] object *)

(** The [field] of each of the five images of an [aita] object, and their
    common resolution.  The five arrays are distinct objects. *)
Record aita : Type := mk_aita {
  phi1 : array2;
  phi : array2;
  qua : array2;
  micro : array2;
  grains : array2;
  res : float
}.

Module Aita.

Section Construction.

(** The labelling of the external [micro2d] class: from the boundary
    mask and the resolution to a field of grain labels. *)
Variable grain_label : array2 -> float -> array2.

(** Lines 74-77 and 117-120: the labels at the boundary pixels
    ([micro == 1]) are overwritten with NaN. *)
Definition mask_boundary (micro_field labels : array2) : option array2 :=
  assign labels (np_where (fun m => (m =? 1)%float) micro_field) nan.

(** [aita.__init__]. *)
Definition __init__ (phi1_field phi_field qua_field micro_field : array2)
  (resolution : float) : result aita :=
  match mask_boundary micro_field (grain_label micro_field resolution) with
  | Some g => Ok (mk_aita phi1_field phi_field qua_field micro_field g resolution)
  | None => Raise IndexError
  end.

(** [crop], from the four slice bounds the two clicked corners give. *)
Definition crop (self : aita) (ymin ymax xmin xmax : Z) : result aita :=
  let phi' := slice2 (phi self) ymin ymax xmin xmax in
  let phi1' := slice2 (phi1 self) ymin ymax xmin xmax in
  let qua' := slice2 (qua self) ymin ymax xmin xmax in
  let micro' := slice2 (micro self) ymin ymax xmin xmax in
  match mask_boundary micro' (grain_label micro' (res self)) with
  | Some g => Ok (mk_aita phi1' phi' qua' micro' g (res self))
  | None => Raise IndexError
  end.

End Construction.

(** [fliplr]: every array is mirrored, and phi1 becomes pi - phi1 modulo
    2 pi. *)
Definition flip_phi1 (x : float) : float :=
  F64.np_mod (F64.math_pi - x) (2 * F64.math_pi).

Definition fliplr (self : aita) : aita :=
  {| phi := np_fliplr (phi self);
     phi1 := map (map flip_phi1) (np_fliplr (phi1 self));
     qua := np_fliplr (qua self);
     micro := np_fliplr (micro self);
     grains := np_fliplr (grains self);
     res := res self |}.

(** [rot180]: every array is flipped both ways, and phi1 becomes
    pi + phi1 modulo 2 pi. *)
Definition rot_phi1 (x : float) : float :=
  F64.np_mod (F64.math_pi + x) (2 * F64.math_pi).

Definition rot180 (self : aita) : aita :=
  {| phi := np_flipud (np_fliplr (phi self));
     phi1 := map (map rot_phi1) (np_flipud (np_fliplr (phi1 self)));
     qua := np_flipud (np_fliplr (qua self));
     micro := np_flipud (np_fliplr (micro self));
     grains := np_flipud (np_fliplr (grains self));
     res := res self |}.

(** [filter(value)]: phi and phi1 become NaN where [qua < value]. *)
Definition filter (self : aita) (value : float) : result aita :=
  let x := np_where (fun q => (q <? value)%float) (qua self) in
  match assign (phi self) x nan with
  | None => Raise IndexError
  | Some phi' =>
      match assign (phi1 self) x nan with
      | None => Raise IndexError
      | Some phi1' =>
          Ok {| phi := phi'; phi1 := phi1'; qua := qua self;
                micro := micro self; grains := grains self; res := res self |}
      end
  end.

(** One turn of the loop of [mean_grain], for the grain number [i]. *)
Definition grain_pixels (self : aita) (i : nat) : list (nat * nat) :=
  np_where (fun g => (g =? F64.of_Z (Z.of_nat i))%float) (grains self).

Definition mean_grain_step (self : aita) (i : nat) : option aita :=
  let idx := grain_pixels self i in
  match take_at (phi self) idx with
  | None => None
  | Some vs =>
    match assign (phi self) idx (np_nanmean vs) with
    | None => None
    | Some phi' =>
      match take_at (phi1 self) idx with
      | None => None
      | Some vs1 =>
        match assign (phi1 self) idx (np_nanmean vs1) with
        | None => None
        | Some phi1' =>
            Some {| phi := phi'; phi1 := phi1'; qua := qua self;
                    micro := micro self; grains := grains self; res := res self |}
        end
      end
    end
  end.

Fixpoint mean_grain_loop (self : aita) (l : list nat) : option aita :=
  match l with
  | [] => Some self
  | i :: t =>
      match mean_grain_step self i with
      | Some self' => mean_grain_loop self' t
      | None => None
      end
  end.

(** The number of grains, [int(np.nanmax(self.grains.field))]. *)
Definition nb_grain (self : aita) : option Z :=
  match np_nanmax (concat (grains self)) with
  | Some m => F64.py_int m
  | None => None
  end.

(** [mean_grain]. *)
Definition mean_grain (self : aita) : result aita :=
  match nb_grain self with
  | None => Raise ValueError
  | Some nb =>
      match mean_grain_loop self (seq 0 (Z.to_nat (nb + 1))) with
      | Some self' => Ok self'
      | None => Raise IndexError
      end
  end.

End Aita.

Definition two_grains : aita :=
  {| phi1 := [[0%float; 0.2%float]; [nan; 3%float]];
     phi := [[0.5%float; 0.75%float]; [nan; 1%float]];
     qua := [[90%float; 80%float]; [10%float; 70%float]];
     micro := [[0%float; 0%float]; [1%float; 0%float]];
     grains := [[0%float; 0%float]; [nan; 1%float]];
     res := 1%float |}.

(** ** The boundary-healing loop of [craft] (lines 226-248) *)

Module Heal.

(** The donor index: the next one for index 0, the previous one
    otherwise ([k] and [kk] of the source). *)
Definition donor (i : nat) : nat := if decide (i = 0) then i + 1 else i - 1.

(** [a[r, c] = a[k, kk]]. *)
Definition copy_donor (a : array2) (p : nat * nat) : option array2 :=
  match get2 a (donor p.1) (donor p.2) with
  | Some v => set2 a p.1 p.2 v
  | None => None
  end.

(** The body of the [for] loop, for one NaN pixel: phi, phi1 and the
    label are copied from the donor, in this order. *)
Definition heal_pixel (self : aita) (p : nat * nat) : option aita :=
  match copy_donor (phi self) p with
  | None => None
  | Some phi' =>
    match copy_donor (phi1 self) p with
    | None => None
    | Some phi1' =>
      match copy_donor (grains self) p with
      | None => None
      | Some grains' =>
          Some {| phi := phi'; phi1 := phi1'; qua := qua self;
                  micro := micro self; grains := grains'; res := res self |}
      end
    end
  end.

(** One pass of the [for] loop over the pixels listed in [idx]. *)
Fixpoint heal_pass (self : aita) (idx : list (nat * nat)) : option aita :=
  match idx with
  | [] => Some self
  | p :: t =>
      match heal_pixel self p with
      | Some self' => heal_pass self' t
      | None => None
      end
  end.

(** [np.where(np.isnan(self.grains.field))]. *)
Definition nan_pixels (self : aita) : list (nat * nat) :=
  np_where F64.np_isnan (grains self).

(** The [while] loop, run for at most [fuel] passes: [None] when the
    loop is still running after [fuel] passes. *)
Fixpoint heal_loop (fuel : nat) (self : aita) (idx : list (nat * nat))
  : option (result aita) :=
  match idx with
  | [] => Some (Ok self)
  | _ :: _ =>
      match fuel with
      | O => None
      | S fuel' =>
          match heal_pass self idx with
          | None => Some (Raise IndexError)
          | Some self' => heal_loop fuel' self' (nan_pixels self')
          end
      end
  end.

Definition craft_heal (fuel : nat) (self : aita) : option (result aita) :=
  heal_loop fuel self (nan_pixels self).

End Heal.

(** The scenario of the specification: a 4 by 4 field whose only
    undefined pixel is (1,1). *)
Definition field44 (v11 : float) : array2 :=
  [[ 1;  2;  3;  4]; [ 5; v11;  7;  8]; [ 9; 10; 11; 12]; [13; 14; 15; 16]]%float.

Definition one_hole : aita :=
  {| phi1 := field44 nan; phi := field44 nan; qua := field44 6;
     micro := field44 6; grains := field44 nan; res := 1%float |}.

Definition all_nan22 : aita :=
  {| phi1 := [[nan; nan]; [nan; nan]]; phi := [[nan; nan]; [nan; nan]];
     qua := [[1; 1]; [1; 1]]%float; micro := [[1; 1]; [1; 1]]%float;
     grains := [[nan; nan]; [nan; nan]]; res := 1%float |}.


(** ** The orientation tensor of [plotpdf] (lines 403-447) *)

Module Plotpdf.

(** [np.float32(x)]: [x] rounded to binary32 (24 bits, exponents below
    128), then held again as a binary64. *)
Definition np_float32 (x : float) : float :=
  match Prim2SF x with
  | S754_finite s m e => SF2Prim (binary_round 24 128 s m e)
  | _ => x
  end.

Section External.

(** libm's cosine and sine on numbers, and LAPACK's eigenvalues of a
    matrix without NaN or infinity. *)
Variables libm_cos libm_sin : float -> float.
Variable geev : list (list float) -> list float.

(** [np.cos] and [np.sin]: NaN goes to NaN. *)
Definition np_cos (x : float) : float := if is_nan x then nan else libm_cos x.
Definition np_sin (x : float) : float := if is_nan x then nan else libm_sin x.

(** [np.linalg.eig] refuses a matrix with a NaN or an infinity. *)
Definition np_linalg_eig (a : list (list float)) : result (list float) :=
  if forallb (forallb is_finite) a then Ok (geev a) else Raise LinAlgError.

(** Line 426 (and 419): the azimuth, phi1 - pi/2 modulo 2 pi. *)
Definition azimuth (x : float) : float :=
  F64.np_mod (x - F64.math_pi / 2) (2 * F64.math_pi).

(** The samples (azimuth, colatitude) of the whole map
    ([select_grain=False]); arrays of different sizes do not multiply. *)
Definition samples_all (self : aita) : result (list (float * float)) :=
  let azi := map azimuth (concat (phi1 self)) in
  let col := concat (phi self) in
  if decide (length azi = length col) then Ok (zip azi col)
  else Raise ValueError.

(** The samples of the grains whose labels are listed
    ([select_grain=True]): [np.concatenate] of no array is a
    ValueError. *)
Fixpoint samples_of (self : aita) (label : list float)
  : option (list (float * float)) :=
  match label with
  | [] => Some []
  | l :: t =>
      let idx := np_where (fun g => (g =? l)%float) (grains self) in
      match take_at (phi1 self) idx, take_at (phi self) idx, samples_of self t with
      | Some a, Some c, Some rest => Some (zip (map azimuth a) c ++ rest)
      | _, _, _ => None
      end
  end.

Definition samples_grains (self : aita) (label : list float)
  : result (list (float * float)) :=
  match label with
  | [] => Raise ValueError
  | _ :: _ =>
      match samples_of self label with
      | Some s => Ok s
      | None => Raise IndexError
      end
  end.

(** Lines 430-432: the c-axis of a sample. *)
Definition xc (s : float * float) : float := (np_cos s.1 * np_sin s.2)%float.
Definition yc (s : float * float) : float := (np_sin s.1 * np_sin s.2)%float.
Definition zc (s : float * float) : float := np_cos s.2.

(** Lines 436-441: a component of the tensor, the NaN-ignoring mean of
    a product of two coordinates (the float128 widening of the source
    is not modelled). *)
Definition component (u v : float * float -> float)
  (samples : list (float * float)) : float :=
  np_float32 (np_nanmean (map (fun s => (u s * v s)%float) samples)).

Definition orientation_tensor (samples : list (float * float))
  : list (list float) :=
  let a11 := component xc xc samples in
  let a22 := component yc yc samples in
  let a33 := component zc zc samples in
  let a12 := component xc yc samples in
  let a13 := component xc zc samples in
  let a23 := component yc zc samples in
  [[a11; a12; a13]; [a12; a22; a23]; [a13; a23; a33]].

(** Lines 403-427: the samples of the call.  [grainlist] is [None] for
    the whole map and the list of grain labels otherwise. *)
Definition samples (self : aita) (grainlist : option (list float))
  : result (list (float * float)) :=
  match grainlist with
  | None => samples_all self
  | Some label => samples_grains self label
  end.

(** [plotpdf] up to line 447, returning the eigenvalues [w]; the
    drawing that follows is not modelled. *)
Definition plotpdf (self : aita) (grainlist : option (list float))
  : result (list float) :=
  match samples self grainlist with
  | Raise e => Raise e
  | Ok s => np_linalg_eig (orientation_tensor s)
  end.

End External.

End Plotpdf.

(** ** [misorientation_profile] (lines 604-637) *)

Module Profile.

(** Lines 604-608 on binary64 values (the source narrows the coordinates
    to float32 first): the number of pixels along the line. *)
Definition nb_pixel (pos0 pos1 : float * float) (resolution : float)
  : option Z :=
  let yy0 := (pos0.1 / resolution)%float in
  let yy1 := (pos1.1 / resolution)%float in
  let xx0 := (pos0.2 / resolution)%float in
  let xx1 := (pos1.2 / resolution)%float in
  F64.py_int (PrimFloat.sqrt
    ((xx1 - xx0) * (xx1 - xx0) + (yy1 - yy0) * (yy1 - yy0)))%float.

(** The product of a row vector by a column vector,
    [ori[0]*np.transpose(ori[i])], accumulated from zero. *)
Definition dot (v w : list float) : float :=
  fold_left (fun acc p => (acc + p.1 * p.2)%float) (zip v w) 0%float.

(** [-v]. *)
Definition neg (v : list float) : list float := map PrimFloat.opp v.

Section External.

(** libm's arc cosine. *)
Variable np_arccos : float -> float.

(** Lines 630 and 633: the misorientation of two c-axes, in degrees. *)
Definition misorientation (v w : list float) : float :=
  (np_arccos (abs (dot v w)) * 180 / F64.math_pi)%float.

End External.

End Profile.

(** ** The same lines in exact real arithmetic *)

Module Exact.

Local Open Scope R_scope.

(** [np.mod] for a positive divisor: what is left above the largest
    multiple of [m] below [x]. *)
Definition np_mod (x m : R) : R := x - m * IZR (Int_part (x / m)).

(** Line 133. *)
Definition flip_phi1 (x : R) : R := np_mod (PI - x) (2 * PI).

(** Line 149. *)
Definition rot_phi1 (x : R) : R := np_mod (PI + x) (2 * PI).




(** [np.int32] on a real: truncation toward zero. *)
Definition np_int32 (x : R) : Z :=
  if Rle_dec 0 x then Int_part x else (- Int_part (- x))%Z.

(** Lines 604-608. *)
Definition nb_pixel (pos0 pos1 : R * R) (resolution : R) : Z :=
  let yy0 := pos0.1 / resolution in
  let yy1 := pos1.1 / resolution in
  let xx0 := pos0.2 / resolution in
  let xx1 := pos1.2 / resolution in
  np_int32 (sqrt ((xx1 - xx0) ^ 2 + (yy1 - yy0) ^ 2)).



End Exact.

(** ** Auxiliary notions for the proofs *)

(** The order in which [np.where] lists positions. *)
Definition row_major (p q : nat * nat) : Prop :=
  p.1 < q.1 \/ (p.1 = q.1 /\ p.2 < q.2).

(** One pass of the healing loop seen on a single array. *)
Fixpoint copy_pass (a : array2) (idx : list (nat * nat)) : option array2 :=
  match idx with
  | [] => Some a
  | p :: t =>
      match Heal.copy_donor a p with
      | Some a' => copy_pass a' t
      | None => None
      end
  end.

(** The label and the two orientation angles of a pixel. *)
Definition pixel (self : aita) (r c : nat) : option float * option float * option float :=
  (get2 (grains self) r c, get2 (phi1 self) r c, get2 (phi self) r c).

(** The three arrays the healing loop writes have [nr] rows and [nc]
    columns. *)
Definition healable (self : aita) (nr nc : nat) : Prop :=
  shape (phi self) nr nc /\ shape (phi1 self) nr nc /\ shape (grains self) nr nc.

(** Every grain label is NaN. *)
Definition all_undefined (self : aita) : Prop :=
  forall r c g, get2 (grains self) r c = Some g -> F64.np_isnan g = true.

(** The microstructure mask and the label field cover one grid. *)
Definition same_grid (self : aita) : Prop :=
  exists nr nc, shape (micro self) nr nc /\ shape (grains self) nr nc.

(** Every boundary pixel ([micro == 1]) has a NaN label. *)
Definition boundary_undefined (self : aita) : Prop :=
  forall r c m,
    get2 (micro self) r c = Some m -> (m =? 1)%float = true ->
    exists g, get2 (grains self) r c = Some g /\ F64.np_isnan g = true.

(** The labelling returns a field of the shape of the mask. *)
Definition keeps_shape (grain_label : array2 -> float -> array2) : Prop :=
  forall m resolution nr nc, shape m nr nc -> shape (grain_label m resolution) nr nc.

(** One turn of the loop of [mean_grain] seen on a single array [a], for
    the label field [g]. *)
Definition label_pixels (g : array2) (i : nat) : list (nat * nat) :=
  np_where (fun x => (x =? F64.of_Z (Z.of_nat i))%float) g.

Definition mean_step_array (g a : array2) (i : nat) : option array2 :=
  match take_at a (label_pixels g i) with
  | Some vs => assign a (label_pixels g i) (np_nanmean vs)
  | None => None
  end.

Fixpoint mean_loop_array (g a : array2) (l : list nat) : option array2 :=
  match l with
  | [] => Some a
  | i :: t =>
      match mean_step_array g a i with
      | Some a' => mean_loop_array g a' t
      | None => None
      end
  end.

(** The grain numbers up to [nb] are different binary64 values (true of
    every number of grains below 2^53). *)
Definition labels_distinct (nb : Z) : Prop :=
  forall i j : nat,
    (Z.of_nat i <= nb)%Z -> (Z.of_nat j <= nb)%Z ->
    (F64.of_Z (Z.of_nat i) =? F64.of_Z (Z.of_nat j))%float = true -> i = j.

(** A labelling that puts every pixel in grain 0, to run the constructor. *)
Definition one_grain (m : array2) (resolution : float) : array2 :=
  map (map (fun _ => 0%float)) m.

(** Two binary64 values are opposite, up to the sign of a zero. *)
Definition sf_is_zero (a : spec_float) : Prop := exists s, a = S754_zero s.

Definition opposite (a b : spec_float) : Prop :=
  a = SFopp b \/ (sf_is_zero a /\ sf_is_zero b).


(** A map of one pixel without measurement. *)
Definition no_measure : aita :=
  {| phi1 := [[nan]]; phi := [[nan]]; qua := [[0%float]];
     micro := [[0%float]]; grains := [[0%float]]; res := 1%float |}.

(** No pixel of the map has a colatitude: no c-axis is defined. *)
Definition no_colatitude (self : aita) : Prop :=
  forall r c v, get2 (phi self) r c = Some v -> is_nan v = true.

(** ** Further notions and inputs for the properties below *)

(** No grain label is NaN. *)
Definition all_defined (self : aita) : Prop :=
  forall r c g, get2 (grains self) r c = Some g -> F64.np_isnan g = false.

(** Every pixel with a NaN label has a donor whose label is defined. *)
Definition donors_defined (self : aita) : Prop :=
  forall r c g,
    get2 (grains self) r c = Some g -> F64.np_isnan g = true ->
    exists gd, get2 (grains self) (Heal.donor r) (Heal.donor c) = Some gd
               /\ F64.np_isnan gd = false.

(** A 2 by 2 field whose NaN labels are on the diagonal. *)
Definition diagonal_holes : aita :=
  {| phi1 := [[nan; 1]; [2; nan]]%float; phi := [[nan; 1]; [2; nan]]%float;
     qua := [[1; 1]; [1; 1]]%float; micro := [[1; 0]; [0; 1]]%float;
     grains := [[nan; 1]; [2; nan]]%float; res := 1%float |}.

(** A field of one row with a NaN label. *)
Definition one_row : aita :=
  {| phi1 := [[nan; 1]]%float; phi := [[nan; 1]]%float;
     qua := [[1; 1]]%float; micro := [[1; 0]]%float;
     grains := [[nan; 1]]%float; res := 1%float |}.

(** [two_grains] with its boundary pixel given to grain 0. *)
Definition two_grains_healed : aita :=
  {| phi1 := [[0%float; 0.2%float]; [0.1%float; 3%float]];
     phi := [[0.5%float; 0.75%float]; [0.6%float; 1%float]];
     qua := [[90%float; 80%float]; [10%float; 70%float]];
     micro := [[0%float; 0%float]; [0%float; 0%float]];
     grains := [[0%float; 0%float]; [0%float; 1%float]];
     res := 1%float |}.

(** The five arrays of the object have [nr] rows and [nc] columns. *)
Definition aita_shape (self : aita) (nr nc : nat) : Prop :=
  shape (phi1 self) nr nc /\ shape (phi self) nr nc /\ shape (qua self) nr nc
  /\ shape (micro self) nr nc /\ shape (grains self) nr nc.

(** ** [isInsideTriangle] (lines 827-848) *)

(** The test on binary64 coordinates: the three triangles that [P] makes
    with two of the corners have, to 1e-7, the area of the whole. *)
Definition isInsideTriangle (P p1 p2 p3 : float * float) : bool :=
  let x := P.1 in let x1 := p1.1 in let x2 := p2.1 in let x3 := p3.1 in
  let y := P.2 in let y1 := p1.2 in let y2 := p2.2 in let y3 := p3.2 in
  let full := abs (x1 * (y2 - y3) + x2 * (y3 - y1) + x3 * (y1 - y2)) in
  let first := abs (x1 * (y2 - y) + x2 * (y - y1) + x * (y1 - y2)) in
  let second := abs (x1 * (y - y3) + x * (y3 - y1) + x3 * (y1 - y)) in
  let third := abs (x * (y2 - y3) + x2 * (y3 - y) + x3 * (y - y2)) in
  (abs (first + second + third - full) <? 0.0000001)%float.


(** * Properties *)

(** ** Arrays: reading, writing and [np.where] *)

Section Arrays.

Implicit Types (a : array2) (r c : nat) (v : float).

Lemma get2_lt a nr nc r c v :
  shape a nr nc -> get2 a r c = Some v -> r < nr /\ c < nc.
Proof.
  intros [Hn Hrows]; unfold get2.
  destruct (a !! r) as [row|] eqn:Hr; [|done].
  intros Hc. split.
  - rewrite <- Hn. by eapply lookup_lt_Some.
  - rewrite Forall_lookup in Hrows. rewrite <- (Hrows _ _ Hr).
    by eapply lookup_lt_Some.
Qed.

Lemma get2_is_Some a nr nc r c :
  shape a nr nc -> r < nr -> c < nc -> is_Some (get2 a r c).
Proof.
  intros [Hn Hrows] Hr Hc; unfold get2.
  destruct (lookup_lt_is_Some_2 a r ltac:(lia)) as [row Hrow].
  rewrite Hrow. apply lookup_lt_is_Some_2.
  rewrite Forall_lookup in Hrows. by rewrite (Hrows _ _ Hrow).
Qed.

Lemma set2_is_Some a r c v : is_Some (get2 a r c) -> is_Some (set2 a r c v).
Proof.
  unfold get2, set2. destruct (a !! r) as [row|]; [|by intros [? ?]].
  intros H%lookup_lt_is_Some_1. by rewrite decide_True.
Qed.

Lemma set2_get2_is_Some a r c v a' : set2 a r c v = Some a' -> is_Some (get2 a r c).
Proof.
  unfold get2, set2. destruct (a !! r) as [row|]; [|done].
  case_decide; [|done]. intros _. by apply lookup_lt_is_Some_2.
Qed.

Lemma get2_set2_eq a r c v a' : set2 a r c v = Some a' -> get2 a' r c = Some v.
Proof.
  unfold get2, set2. destruct (a !! r) as [row|] eqn:Hr; [|done].
  case_decide; [|done]. intros [= <-].
  rewrite list_lookup_insert_eq by by eapply lookup_lt_Some.
  by rewrite list_lookup_insert_eq.
Qed.

Lemma get2_set2_ne a r c v a' r' c' :
  set2 a r c v = Some a' -> (r', c') <> (r, c) -> get2 a' r' c' = get2 a r' c'.
Proof.
  unfold get2, set2. destruct (a !! r) as [row|] eqn:Hr; [|done].
  case_decide; [|done]. intros [= <-] Hne.
  destruct (decide (r' = r)) as [->|Hrr].
  - rewrite list_lookup_insert_eq by by eapply lookup_lt_Some.
    rewrite Hr. apply list_lookup_insert_ne. congruence.
  - by rewrite list_lookup_insert_ne.
Qed.

Lemma set2_shape a r c v a' nr nc :
  set2 a r c v = Some a' -> shape a nr nc -> shape a' nr nc.
Proof.
  unfold set2. destruct (a !! r) as [row|] eqn:Hr; [|done].
  case_decide; [|done]. intros [= <-] [Hn Hrows]. split.
  - by rewrite length_insert.
  - apply Forall_insert; [done|]. rewrite length_insert.
    rewrite Forall_lookup in Hrows. by eapply Hrows.
Qed.

(** Two arrays of one shape have their entries at the same places. *)
Lemma same_shape_get2 a b nr nc r c :
  shape a nr nc -> shape b nr nc -> is_Some (get2 a r c) -> is_Some (get2 b r c).
Proof.
  intros Ha Hb [v Hv]. destruct (get2_lt _ _ _ _ _ _ Ha Hv).
  by eapply get2_is_Some.
Qed.

(** *** Membership in [np.where] *)

Lemma elem_of_where_row p r c0 (row : list float) q :
  q ∈ where_row p r c0 row <->
  exists c v, q = (r, c0 + c) /\ row !! c = Some v /\ p v = true.
Proof.
  revert c0. induction row as [|x t IH]; intros c0; simpl.
  - rewrite elem_of_nil. split; [done|]. by intros (c & v & _ & ? & _).
  - rewrite elem_of_app, IH. split.
    + intros [Hx|(c & v & -> & Hc & Hp)].
      * destruct (p x) eqn:Hpx; [|by apply elem_of_nil in Hx].
        apply list_elem_of_singleton in Hx as ->.
        exists 0, x. by rewrite Nat.add_0_r.
      * exists (S c), v. split_and!; [f_equal; lia|done|done].
    + intros (c & v & -> & Hc & Hp). destruct c as [|c]; simpl in Hc.
      * injection Hc as ->. left. rewrite Hp, Nat.add_0_r.
        by apply list_elem_of_singleton.
      * right. exists c, v. split_and!; [f_equal; lia|done|done].
Qed.

Lemma elem_of_where_from p r0 a q :
  q ∈ where_from p r0 a <->
  exists r c v, q = (r0 + r, c) /\ get2 a r c = Some v /\ p v = true.
Proof.
  revert r0. induction a as [|row t IH]; intros r0; simpl.
  - rewrite elem_of_nil. split; [done|]. by intros (r & c & v & _ & ? & _).
  - rewrite elem_of_app, IH, elem_of_where_row. split.
    + intros [(c & v & -> & Hc & Hp)|(r & c & v & -> & Hg & Hp)].
      * exists 0, c, v. by rewrite Nat.add_0_r.
      * exists (S r), c, v. split_and!; [f_equal; lia|done|done].
    + intros (r & c & v & -> & Hg & Hp). destruct r as [|r].
      * left. exists c, v. by rewrite Nat.add_0_r.
      * right. exists r, c, v. split_and!; [f_equal; lia|done|done].
Qed.

Lemma elem_of_np_where p a r c :
  (r, c) ∈ np_where p a <-> exists v, get2 a r c = Some v /\ p v = true.
Proof.
  unfold np_where. rewrite elem_of_where_from. split.
  - intros (r' & c' & v & [= -> ->] & Hg & Hp). by exists v.
  - intros (v & Hg & Hp). by exists r, c, v.
Qed.

(** *** [np.where] lists the positions in row-major order *)

Lemma where_row_sorted p r c0 (row : list float) :
  StronglySorted row_major (where_row p r c0 row).
Proof.
  revert c0. induction row as [|x t IH]; intros c0; simpl; [constructor|].
  apply StronglySorted_app; split_and!.
  - intros q1 q2 Hq1 (c & v & -> & _)%elem_of_where_row.
    destruct (p x); [|by apply elem_of_nil in Hq1].
    apply list_elem_of_singleton in Hq1 as ->. right; simpl. lia.
  - destruct (p x); repeat constructor.
  - apply IH.
Qed.

Lemma where_from_sorted p r0 a : StronglySorted row_major (where_from p r0 a).
Proof.
  revert r0. induction a as [|row t IH]; intros r0; simpl; [constructor|].
  apply StronglySorted_app; split_and!.
  - intros q1 q2 (c & v & -> & _)%elem_of_where_row
      (r' & c' & v' & -> & _)%elem_of_where_from.
    left; simpl. lia.
  - apply where_row_sorted.
  - apply IH.
Qed.

Lemma row_major_irrefl q : ~ row_major q q.
Proof. unfold row_major. lia. Qed.

Lemma sorted_NoDup (l : list (nat * nat)) :
  StronglySorted row_major l -> NoDup l.
Proof.
  induction 1 as [|q l Hl IH Hall]; constructor; [|done].
  intros Hq. rewrite Forall_forall in Hall.
  by apply (row_major_irrefl q), Hall.
Qed.

Lemma np_where_NoDup p a : NoDup (np_where p a).
Proof. apply sorted_NoDup, where_from_sorted. Qed.

(** *** Index assignment *)

Lemma assign_shape a idx v a' nr nc :
  assign a idx v = Some a' -> shape a nr nc -> shape a' nr nc.
Proof.
  revert a. induction idx as [|[r c] t IH]; intros a; simpl.
  - by intros [= <-].
  - destruct (set2 a r c v) as [a1|] eqn:Hs; [|done].
    intros Ha Hsh. eapply IH; [done|]. by eapply set2_shape.
Qed.

Lemma assign_get2_notin a idx v a' r c :
  assign a idx v = Some a' -> (r, c) ∉ idx -> get2 a' r c = get2 a r c.
Proof.
  revert a. induction idx as [|[r0 c0] t IH]; intros a; simpl.
  - by intros [= <-].
  - destruct (set2 a r0 c0 v) as [a1|] eqn:Hs; [|done].
    intros Ha Hnot. apply not_elem_of_cons in Hnot as [Hne Hnot].
    rewrite (IH _ Ha Hnot). by eapply get2_set2_ne.
Qed.

Lemma assign_get2_in a idx v a' r c :
  assign a idx v = Some a' -> (r, c) ∈ idx -> get2 a' r c = Some v.
Proof.
  revert a. induction idx as [|[r0 c0] t IH]; intros a; simpl.
  - intros _ H. by apply elem_of_nil in H.
  - destruct (set2 a r0 c0 v) as [a1|] eqn:Hs; [|done].
    intros Ha Hin. destruct (decide ((r, c) ∈ t)) as [Ht|Ht].
    + by eapply IH.
    + apply elem_of_cons in Hin as [[= -> ->]|]; [|done].
      rewrite (assign_get2_notin _ _ _ _ _ _ Ha Ht). by eapply get2_set2_eq.
Qed.

Lemma assign_is_Some a idx v :
  (forall r c, (r, c) ∈ idx -> is_Some (get2 a r c)) -> is_Some (assign a idx v).
Proof.
  revert a. induction idx as [|[r c] t IH]; intros a Hall; simpl; [done|].
  destruct (set2_is_Some a r c v (Hall r c ltac:(left))) as [a1 Hs].
  rewrite Hs. apply IH. intros r' c' Hin.
  destruct (decide ((r', c') = (r, c))) as [[= -> ->]|Hne].
  - rewrite (get2_set2_eq _ _ _ _ _ Hs). done.
  - rewrite (get2_set2_ne _ _ _ _ _ _ _ Hs Hne). apply Hall. by right.
Qed.

Lemma take_at_is_Some a idx :
  (forall r c, (r, c) ∈ idx -> is_Some (get2 a r c)) -> is_Some (take_at a idx).
Proof.
  induction idx as [|[r c] t IH]; intros Hall; simpl; [done|].
  destruct (Hall r c ltac:(left)) as [v ->].
  destruct IH as [vs ->]; [|done]. intros r' c' ?. apply Hall. by right.
Qed.

End Arrays.

(** ** binary64 facts, from the specification of the primitive floats *)

Section Floats.

Implicit Types (x y z : float) (a b : spec_float).

Lemma is_nan_spec x : is_nan x = true <-> Prim2SF x = S754_nan.
Proof.
  unfold is_nan. rewrite FloatAxioms.eqb_spec. unfold SFeqb.
  destruct (Prim2SF x) as [s|s| |s m e]; simpl; try destruct s; simpl;
    try (split; [discriminate|discriminate]).
  - done.
  - rewrite Z.compare_refl, Pos.compare_cont_refl; simpl. split; discriminate.
  - rewrite Z.compare_refl, Pos.compare_cont_refl; simpl. split; discriminate.
Qed.

Lemma is_nan_eq x : is_nan x = true <-> x = nan.
Proof.
  rewrite is_nan_spec. split.
  - intros H. apply Prim2SF_inj. by rewrite H.
  - by intros ->.
Qed.

(** A value equal to the threshold is not below it. *)
Lemma eqb_not_ltb x y : (x =? y)%float = true -> (x <? y)%float = false.
Proof.
  rewrite FloatAxioms.eqb_spec, ltb_spec. unfold SFeqb, SFltb.
  by destruct (SFcompare (Prim2SF x) (Prim2SF y)) as [[]|].
Qed.

Lemma ltb_irrefl x : (x <? x)%float = false.
Proof.
  rewrite ltb_spec. unfold SFltb.
  destruct (Prim2SF x) as [s|s| |s m e]; simpl; try destruct s; simpl; try done;
    by rewrite Z.compare_refl, Pos.compare_cont_refl.
Qed.

Lemma SFcompare_Eq_finite s1 m1 e1 s2 m2 e2 :
  SFcompare (S754_finite s1 m1 e1) (S754_finite s2 m2 e2) = Some Eq ->
  s1 = s2 /\ m1 = m2 /\ e1 = e2.
Proof.
  simpl. destruct s1, s2; try discriminate;
    destruct (Z.compare_spec e1 e2) as [->| |]; try discriminate;
    intros [= H].
  - apply (f_equal CompOpp) in H. rewrite CompOpp_involutive in H. simpl in H.
    by apply Pcompare_Eq_eq in H as ->.
  - by apply Pcompare_Eq_eq in H as ->.
Qed.

(** Two labels equal to a third are equal. *)
Lemma eqb_eqb x y z :
  (x =? y)%float = true -> (x =? z)%float = true -> (y =? z)%float = true.
Proof.
  rewrite !FloatAxioms.eqb_spec. unfold SFeqb.
  destruct (SFcompare (Prim2SF x) (Prim2SF y)) as [[]|] eqn:Hxy; try done.
  destruct (SFcompare (Prim2SF x) (Prim2SF z)) as [[]|] eqn:Hxz; try done.
  intros _ _.
  destruct (Prim2SF x) as [sx|sx| |sx mx ex], (Prim2SF y) as [sy|sy| |sy my ey];
    try (simpl in Hxy; repeat case_match; discriminate);
    destruct (Prim2SF z) as [sz|sz| |sz mz ez];
    try (simpl in Hxz; repeat case_match; discriminate);
    try done.
  - simpl in *. by destruct sx, sy, sz.
  - apply SFcompare_Eq_finite in Hxy as (<- & <- & <-).
    apply SFcompare_Eq_finite in Hxz as (<- & <- & <-).
    simpl. destruct sx; by rewrite Z.compare_refl, Pos.compare_cont_refl.
Qed.

End Floats.


(** ** The sign symmetry of binary64 products and sums *)

Section Sign.

Implicit Types (a b : spec_float) (x y : float).

Lemma binary_round_aux_opp s m e l :
  binary_round_aux prec emax (negb s) m e l
  = SFopp (binary_round_aux prec emax s m e l).
Proof.
  unfold binary_round_aux.
  destruct (shr_fexp prec emax m e l) as [mrs' e'].
  destruct (shr_fexp prec emax _ e' loc_Exact) as [mrs'' e''].
  destruct (shr_m mrs'') as [|p|p]; simpl; [done| |done].
  by destruct (e'' <=? emax - prec)%Z.
Qed.

Lemma binary_round_opp s m e :
  binary_round prec emax (negb s) m e = SFopp (binary_round prec emax s m e).
Proof.
  unfold binary_round. destruct (shl_align m e _) as [mz ez].
  apply binary_round_aux_opp.
Qed.

Lemma xorb_negb_r s t : xorb s (negb t) = negb (xorb s t).
Proof. by destruct s, t. Qed.

Lemma xorb_negb_l s t : xorb (negb s) t = negb (xorb s t).
Proof. by destruct s, t. Qed.

Lemma SFmul_opp_r a b : SF64mul a (SFopp b) = SFopp (SF64mul a b).
Proof.
  unfold SF64mul.
  destruct a as [s|s| |s m e], b as [t|t| |t n f]; simpl;
    rewrite ?xorb_negb_r; try done.
  apply binary_round_aux_opp.
Qed.

Lemma SFmul_opp_l a b : SF64mul (SFopp a) b = SFopp (SF64mul a b).
Proof.
  unfold SF64mul.
  destruct a as [s|s| |s m e], b as [t|t| |t n f]; simpl;
    rewrite ?xorb_negb_l; try done.
  apply binary_round_aux_opp.
Qed.

Lemma cond_Zopp_negb s z : cond_Zopp (negb s) z = (- cond_Zopp s z)%Z.
Proof. destruct s; simpl; lia. Qed.

Lemma binary_normalize_opp z e :
  opposite (binary_normalize prec emax (- z) e false)
           (binary_normalize prec emax z e false).
Proof.
  destruct z as [|p|p]; simpl.
  - right. split; by eexists.
  - left. apply (binary_round_opp false).
  - left. apply (binary_round_opp true).
Qed.


Lemma SFadd_opp a b : opposite (SF64add (SFopp a) (SFopp b)) (SF64add a b).
Proof.
  unfold SF64add.
  destruct a as [s|s| |s m e], b as [t|t| |t n f]; simpl;
    try (by left);
    try (destruct s, t; simpl; first [by left | right; split; by eexists]).
  rewrite !cond_Zopp_negb, <- Z.opp_add_distr.
  apply binary_normalize_opp.
Qed.

Lemma SFadd_zero_l s b : ~ sf_is_zero b -> SF64add (S754_zero s) b = b.
Proof.
  destruct b as [t|t| |t n f]; simpl; try done.
  intros H. destruct H. by eexists.
Qed.

Lemma SFadd_zero_r s a : ~ sf_is_zero a -> SF64add a (S754_zero s) = a.
Proof.
  destruct a as [t|t| |t n f]; simpl; try done.
  intros H. destruct H. by eexists.
Qed.

Lemma SFadd_zero_zero s t : sf_is_zero (SF64add (S754_zero s) (S754_zero t)).
Proof. destruct s, t; simpl; by eexists. Qed.

Lemma sf_is_zero_opp a : sf_is_zero (SFopp a) <-> sf_is_zero a.
Proof.
  split; intros [s Hs]; destruct a as [t|t| |t n f]; simpl in *;
    try discriminate; by eexists.
Qed.

Lemma sf_is_zero_dec a : sf_is_zero a \/ ~ sf_is_zero a.
Proof.
  destruct a as [t|t| |t n f]; [left; by eexists|right..];
    intros [s Hs]; discriminate.
Qed.

(** Sums of opposite terms are opposite. *)
Lemma SFadd_opposite a a' b b' :
  opposite a b -> opposite a' b' -> opposite (SF64add a a') (SF64add b b').
Proof.
  intros [->|[[s ->] [t ->]]] [->|[[s' ->] [t' ->]]].
  - apply SFadd_opp.
  - destruct (sf_is_zero_dec b) as [[u ->]|Hb].
    + right. simpl SFopp. split; apply SFadd_zero_zero.
    + left. rewrite !SFadd_zero_r; [done|done|]. by rewrite sf_is_zero_opp.
  - destruct (sf_is_zero_dec b') as [[u ->]|Hb].
    + right. simpl SFopp. split; apply SFadd_zero_zero.
    + left. rewrite !SFadd_zero_l; [done|done|]. by rewrite sf_is_zero_opp.
  - right. split; apply SFadd_zero_zero.
Qed.

Lemma opposite_abs a b : opposite a b -> SFabs a = SFabs b.
Proof.
  intros [->|[[s ->] [t ->]]]; [|done]. by destruct b.
Qed.

(** The product of the source from any accumulator. *)
Lemma dot_fold_neg_r (v w : list float) (acc acc' : float) :
  opposite (Prim2SF acc) (Prim2SF acc') ->
  opposite
    (Prim2SF (fold_left (fun s p => (s + p.1 * p.2)%float) (zip v (Profile.neg w)) acc))
    (Prim2SF (fold_left (fun s p => (s + p.1 * p.2)%float) (zip v w) acc')).
Proof.
  revert w acc acc'. induction v as [|x v IH]; intros [|y w] acc acc' Hacc;
    simpl; try done.
  apply IH. rewrite !add_spec, !mul_spec, opp_spec.
  apply SFadd_opposite; [done|]. left. apply SFmul_opp_r.
Qed.

Lemma dot_fold_neg_l (v w : list float) (acc acc' : float) :
  opposite (Prim2SF acc) (Prim2SF acc') ->
  opposite
    (Prim2SF (fold_left (fun s p => (s + p.1 * p.2)%float) (zip (Profile.neg v) w) acc))
    (Prim2SF (fold_left (fun s p => (s + p.1 * p.2)%float) (zip v w) acc')).
Proof.
  revert w acc acc'. induction v as [|x v IH]; intros [|y w] acc acc' Hacc;
    simpl; try done.
  apply IH. rewrite !add_spec, !mul_spec, opp_spec.
  apply SFadd_opposite; [done|]. left. apply SFmul_opp_l.
Qed.

Lemma abs_dot_neg_r v w :
  abs (Profile.dot v (Profile.neg w)) = abs (Profile.dot v w).
Proof.
  apply Prim2SF_inj. rewrite !abs_spec. apply opposite_abs.
  apply dot_fold_neg_r. right. split; by exists false.
Qed.

Lemma abs_dot_neg_l v w :
  abs (Profile.dot (Profile.neg v) w) = abs (Profile.dot v w).
Proof.
  apply Prim2SF_inj. rewrite !abs_spec. apply opposite_abs.
  apply dot_fold_neg_l. right. split; by exists false.
Qed.

End Sign.

(** ** Grain numbers as binary64 values *)

Section IntFloat.

Local Open Scope Z_scope.

Lemma digits2_size p : digits2_pos p = Pos.size p.
Proof. induction p; simpl; congruence. Qed.

Lemma digits2_iter p k :
  digits2_pos (Pos.iter xO p k) = (digits2_pos p + k)%positive.
Proof.
  induction k using Pos.peano_ind.
  - simpl. lia.
  - rewrite Pos.iter_succ. simpl. rewrite IHk. lia.
Qed.

Lemma iter_xO_inj p q k : Pos.iter xO p k = Pos.iter xO q k -> p = q.
Proof.
  induction k using Pos.peano_ind.
  - simpl. congruence.
  - rewrite !Pos.iter_succ. intros [= H]. auto.
Qed.

Lemma digits2_le_53 p : Zpos p < 2 ^ 53 -> Zpos (digits2_pos p) <= 53.
Proof.
  intros Hp. rewrite digits2_size.
  pose proof (Pos.size_le p) as H.
  destruct (Z_le_gt_dec (Zpos (Pos.size p)) 53) as [|Hgt]; [done|exfalso].
  assert (2 ^ 54 <= 2 ^ Zpos (Pos.size p)) by (apply Z.pow_le_mono_r; lia).
  assert (Zpos (2 ^ Pos.size p) = 2 ^ Zpos (Pos.size p)) by (by rewrite Pos2Z.inj_pow).
  assert (Zpos (2 ^ Pos.size p) <= Zpos p~0) by (apply Pos2Z.pos_le_pos; exact H).
  lia.
Qed.

(** A mantissa of 53 digits is its own rounding. *)
Lemma binary_round_aux_exact m e :
  Zpos (digits2_pos m) = 53 -> -1074 <= e <= 971 ->
  binary_round_aux prec emax false (Zpos m) e loc_Exact = S754_finite false m e.
Proof.
  intros Hd He. unfold binary_round_aux, shr_fexp, shr_record_of_loc.
  simpl Zdigits2. rewrite Hd.
  assert (Hf : fexp prec emax (53 + e) - e = 0).
  { unfold fexp, emin, prec, emax. lia. }
  rewrite Hf. simpl. rewrite Hd, Hf. simpl.
  destruct (e <=? emax - prec) eqn:Hle; [done|].
  apply Z.leb_gt in Hle. unfold emax, prec in Hle. lia.
Qed.

(** The float of a positive integer below 2^53: the integer shifted to 53
    digits. *)
Lemma binary_round_small p :
  Zpos p < 2 ^ 53 ->
  exists m, binary_round prec emax false p 0
            = S754_finite false m (Zpos (digits2_pos p) - 53)
    /\ Zpos (digits2_pos m) = 53
    /\ (forall q, digits2_pos q = digits2_pos p ->
          binary_round prec emax false q 0
          = S754_finite false m (Zpos (digits2_pos p) - 53) -> q = p).
Proof.
  intros Hp. pose proof (digits2_le_53 p Hp) as Hd.
  assert (Hround : forall q, digits2_pos q = digits2_pos p ->
    binary_round prec emax false q 0
    = match Zpos (digits2_pos p) - 53 with
      | Zneg k => S754_finite false (Pos.iter xO q k) (Zpos (digits2_pos p) - 53)
      | _ => S754_finite false q (Zpos (digits2_pos p) - 53)
      end).
  { intros q Hq. unfold binary_round, shl_align. rewrite Hq.
    assert (Hf : fexp prec emax (Zpos (digits2_pos p) + 0)
                 = Zpos (digits2_pos p) - 53).
    { unfold fexp, emin, prec, emax. lia. }
    rewrite Hf, Z.sub_0_r.
    destruct (Zpos (digits2_pos p) - 53) as [|k|k] eqn:Hk; [|lia|].
    - rewrite binary_round_aux_exact; [done| |lia].
      rewrite Hq. lia.
    - rewrite binary_round_aux_exact; [done| |lia].
      rewrite digits2_iter, Hq. lia. }
  exists (match Zpos (digits2_pos p) - 53 with
          | Zneg k => Pos.iter xO p k
          | _ => p
          end).
  split_and!.
  - rewrite (Hround p eq_refl). by destruct (Zpos (digits2_pos p) - 53).
  - destruct (Zpos (digits2_pos p) - 53) as [|k|k] eqn:Hk; [lia|lia|].
    rewrite digits2_iter. lia.
  - intros q Hq. rewrite (Hround q Hq).
    destruct (Zpos (digits2_pos p) - 53) as [|k|k] eqn:Hk.
    + by intros [= ->].
    + by intros [= ->].
    + intros [= H]. by apply iter_xO_inj in H.
Qed.

Lemma valid_53 m e :
  Zpos (digits2_pos m) = 53 -> -1074 <= e <= 971 ->
  valid_binary (S754_finite false m e) = true.
Proof.
  intros Hd He. unfold FloatAxioms.valid_binary. simpl. unfold SpecFloat.bounded, canonical_mantissa.
  rewrite Hd. unfold fexp, emin, prec, emax.
  apply andb_true_intro. split; [apply Z.eqb_eq|apply Z.leb_le]; lia.
Qed.

Lemma of_Z_inj_small i j :
  0 <= i < 2 ^ 53 -> 0 <= j < 2 ^ 53 ->
  (F64.of_Z i =? F64.of_Z j)%float = true -> i = j.
Proof.
  intros Hi Hj. rewrite FloatAxioms.eqb_spec.
  destruct i as [|p|p], j as [|q|q]; try lia; try done; unfold F64.of_Z, binary_normalize.
  - destruct (binary_round_small q) as (m & Hm & Hdm & _); [lia|].
    pose proof (digits2_le_53 q ltac:(lia)).
    rewrite Hm, Prim2SF_SF2Prim by (apply valid_53; lia). done.
  - destruct (binary_round_small p) as (m & Hm & Hdm & _); [lia|].
    pose proof (digits2_le_53 p ltac:(lia)).
    rewrite Hm, Prim2SF_SF2Prim by (apply valid_53; lia). done.
  - destruct (binary_round_small p) as (m & Hm & Hdm & Hinj); [lia|].
    destruct (binary_round_small q) as (n & Hn & Hdn & _); [lia|].
    pose proof (digits2_le_53 p ltac:(lia)).
    pose proof (digits2_le_53 q ltac:(lia)).
    rewrite Hm, Hn, !Prim2SF_SF2Prim by (apply valid_53; lia).
    unfold SFeqb. destruct (SFcompare _ _) as [[]|] eqn:Hc; try done.
    intros _. simpl in Hc.
    destruct (Z.compare_spec (Zpos (digits2_pos p) - 53) (Zpos (digits2_pos q) - 53))
      as [He| |]; try discriminate.
    injection Hc as Hc. apply Pcompare_Eq_eq in Hc as <-.
    assert (Hpq : digits2_pos q = digits2_pos p) by lia.
    f_equal. symmetry. apply Hinj; [done|]. rewrite Hn. f_equal. lia.
Qed.

Lemma labels_distinct_small (nb : Z) : nb < 2 ^ 53 -> labels_distinct nb.
Proof.
  intros Hnb i j Hi Hj Heq.
  apply Nat2Z.inj, of_Z_inj_small; [lia|lia|done].
Qed.

End IntFloat.

(** ** The healing pass *)

Section HealPass.

Implicit Types (a : array2) (p q : nat * nat) (idx : list (nat * nat)).

Lemma donor_lt i n : 2 <= n -> i < n -> Heal.donor i < n.
Proof. unfold Heal.donor. case_decide; lia. Qed.

Lemma donor_ne i : Heal.donor i <> i.
Proof. unfold Heal.donor. case_decide; lia. Qed.

Lemma copy_donor_get2_eq a p a' :
  Heal.copy_donor a p = Some a' ->
  get2 a' p.1 p.2 = get2 a (Heal.donor p.1) (Heal.donor p.2)
  /\ is_Some (get2 a (Heal.donor p.1) (Heal.donor p.2)).
Proof.
  unfold Heal.copy_donor.
  destruct (get2 a (Heal.donor p.1) (Heal.donor p.2)) as [v|]; [|done].
  intros Hs. split; [by eapply get2_set2_eq|done].
Qed.

Lemma copy_donor_get2_ne a p a' q :
  Heal.copy_donor a p = Some a' -> q <> p -> get2 a' q.1 q.2 = get2 a q.1 q.2.
Proof.
  unfold Heal.copy_donor.
  destruct (get2 a (Heal.donor p.1) (Heal.donor p.2)) as [v|]; [|done].
  intros Hs Hne. eapply get2_set2_ne; [done|].
  destruct p, q; simpl in *. congruence.
Qed.

Lemma copy_donor_shape a p a' nr nc :
  Heal.copy_donor a p = Some a' -> shape a nr nc -> shape a' nr nc.
Proof.
  unfold Heal.copy_donor.
  destruct (get2 a (Heal.donor p.1) (Heal.donor p.2)) as [v|]; [|done].
  apply set2_shape.
Qed.

Lemma copy_donor_is_Some a p nr nc :
  shape a nr nc -> 2 <= nr -> 2 <= nc -> p.1 < nr -> p.2 < nc ->
  is_Some (Heal.copy_donor a p).
Proof.
  intros Hsh Hnr Hnc Hr Hc. unfold Heal.copy_donor.
  destruct (get2_is_Some a nr nc (Heal.donor p.1) (Heal.donor p.2) Hsh)
    as [v ->]; [by apply donor_lt..|].
  apply set2_is_Some. by eapply get2_is_Some.
Qed.

Lemma copy_pass_app a l1 l2 :
  copy_pass a (l1 ++ l2) =
  match copy_pass a l1 with Some a1 => copy_pass a1 l2 | None => None end.
Proof.
  revert a. induction l1 as [|p t IH]; intros a; simpl; [done|].
  destruct (Heal.copy_donor a p); [apply IH|done].
Qed.

Lemma copy_pass_notin a idx a' q :
  copy_pass a idx = Some a' -> q ∉ idx -> get2 a' q.1 q.2 = get2 a q.1 q.2.
Proof.
  revert a. induction idx as [|p t IH]; intros a; simpl.
  - by intros [= <-].
  - destruct (Heal.copy_donor a p) as [a1|] eqn:Hc; [|done].
    intros Ha Hnot. apply not_elem_of_cons in Hnot as [Hne Hnot].
    rewrite (IH _ Ha Hnot). by eapply copy_donor_get2_ne.
Qed.

Lemma copy_pass_outside a idx a' r c :
  copy_pass a idx = Some a' -> (r, c) ∉ idx -> get2 a' r c = get2 a r c.
Proof. intros Ha Hnot. exact (copy_pass_notin a idx a' (r, c) Ha Hnot). Qed.

Lemma copy_pass_shape a idx a' nr nc :
  copy_pass a idx = Some a' -> shape a nr nc -> shape a' nr nc.
Proof.
  revert a. induction idx as [|p t IH]; intros a; simpl.
  - by intros [= <-].
  - destruct (Heal.copy_donor a p) as [a1|] eqn:Hc; [|done].
    intros Ha Hsh. eapply IH; [done|]. by eapply copy_donor_shape.
Qed.

Lemma copy_pass_is_Some a idx nr nc :
  shape a nr nc -> 2 <= nr -> 2 <= nc ->
  (forall q, q ∈ idx -> q.1 < nr /\ q.2 < nc) ->
  is_Some (copy_pass a idx).
Proof.
  intros Hsh Hnr Hnc. revert a Hsh.
  induction idx as [|p t IH]; intros a Hsh Hall; simpl; [done|].
  destruct (Hall p ltac:(left)) as [Hr Hc].
  destruct (copy_donor_is_Some a p nr nc Hsh Hnr Hnc Hr Hc) as [a1 Ha1].
  rewrite Ha1. apply IH; [by eapply copy_donor_shape|].
  intros q Hq. apply Hall. by right.
Qed.

(** What a pass leaves at a listed position: the donor's value at the
    moment the position is reached. *)
Lemma copy_pass_at a l1 p l2 a' :
  copy_pass a (l1 ++ p :: l2) = Some a' -> p ∉ l2 ->
  exists a1, copy_pass a l1 = Some a1
    /\ get2 a' p.1 p.2 = get2 a1 (Heal.donor p.1) (Heal.donor p.2)
    /\ (forall q, q ∉ p :: l2 -> get2 a' q.1 q.2 = get2 a1 q.1 q.2).
Proof.
  rewrite copy_pass_app. destruct (copy_pass a l1) as [a1|]; [|done].
  simpl. destruct (Heal.copy_donor a1 p) as [a2|] eqn:Hc; [|done].
  intros Ha' Hnot. exists a1. split; [done|]. split.
  - rewrite (copy_pass_notin _ _ _ _ Ha' Hnot).
    by apply copy_donor_get2_eq.
  - intros q Hq. apply not_elem_of_cons in Hq as [Hne Hq].
    rewrite (copy_pass_notin _ _ _ _ Ha' Hq). by eapply copy_donor_get2_ne.
Qed.

(** The pass on a sorted index list, position by position: a position of
    the first row receives what its donor held before the pass, any
    other listed position what its donor holds after the pass. *)
Lemma copy_pass_sorted a idx a' p :
  StronglySorted row_major idx -> copy_pass a idx = Some a' -> p ∈ idx ->
  let d := (Heal.donor p.1, Heal.donor p.2) in
  get2 a' p.1 p.2 = (if decide (p.1 = 0) then get2 a d.1 d.2 else get2 a' d.1 d.2)
  /\ (d ∉ idx -> get2 a' p.1 p.2 = get2 a d.1 d.2).
Proof.
  intros Hsort Ha' Hin d.
  destruct (list_elem_of_split _ _ Hin) as (l1 & l2 & ->).
  pose proof (sorted_NoDup _ Hsort) as Hnd.
  apply NoDup_app in Hnd as (_ & Hl1 & Hnd2).
  apply NoDup_cons in Hnd2 as [Hp2 _].
  apply StronglySorted_app in Hsort as (Hlt1 & _ & Hs2).
  apply StronglySorted_cons in Hs2 as [Hlt2 _].
  rewrite Forall_forall in Hlt2.
  destruct (copy_pass_at _ _ _ _ _ Ha' Hp2) as (a1 & Ha1 & Hp & Hrest).
  assert (Hd1 : d ∉ l1 -> get2 a1 d.1 d.2 = get2 a d.1 d.2)
    by (intros ?; by eapply copy_pass_notin).
  split.
  - rewrite Hp. case_decide as Hr0.
    + apply Hd1. intros Hd. specialize (Hlt1 d p Hd ltac:(left)).
      unfold row_major, d, Heal.donor in Hlt1; simpl in Hlt1.
      rewrite Hr0 in Hlt1. simpl in Hlt1. lia.
    + symmetry. apply (Hrest d). intros Hd.
      apply elem_of_cons in Hd as [Hd|Hd].
      * apply (donor_ne p.1). change (d.1 = p.1). by rewrite Hd.
      * specialize (Hlt2 d Hd). unfold row_major, d, Heal.donor in Hlt2.
        simpl in Hlt2. rewrite decide_False in Hlt2 by done. lia.
  - intros Hd. rewrite Hp. apply Hd1. intros ?. apply Hd.
    apply elem_of_app. by left.
Qed.

(** A pass on the object is the pass on each of its three arrays. *)
Lemma heal_pass_arrays self idx self' :
  Heal.heal_pass self idx = Some self' ->
  copy_pass (phi self) idx = Some (phi self')
  /\ copy_pass (phi1 self) idx = Some (phi1 self')
  /\ copy_pass (grains self) idx = Some (grains self')
  /\ qua self' = qua self /\ micro self' = micro self /\ res self' = res self.
Proof.
  revert self. induction idx as [|p t IH]; intros self; simpl.
  - by intros [= <-].
  - unfold Heal.heal_pixel.
    destruct (Heal.copy_donor (phi self) p) as [a|]; [|done].
    destruct (Heal.copy_donor (phi1 self) p) as [b|]; [|done].
    destruct (Heal.copy_donor (grains self) p) as [g|]; [|done].
    intros H. by apply IH in H.
Qed.

Lemma heal_pass_is_Some self idx :
  is_Some (copy_pass (phi self) idx) -> is_Some (copy_pass (phi1 self) idx) ->
  is_Some (copy_pass (grains self) idx) -> is_Some (Heal.heal_pass self idx).
Proof.
  revert self. induction idx as [|p t IH]; intros self; simpl; [done|].
  unfold Heal.heal_pixel.
  destruct (Heal.copy_donor (phi self) p) as [a|]; [|by intros [? ?]].
  destruct (Heal.copy_donor (phi1 self) p) as [b|]; [|by intros _ [? ?]].
  destruct (Heal.copy_donor (grains self) p) as [g|]; [|by intros _ _ [? ?]].
  intros. by apply IH.
Qed.

Lemma nan_pixels_bounds self nr nc q :
  shape (grains self) nr nc -> q ∈ Heal.nan_pixels self -> q.1 < nr /\ q.2 < nc.
Proof.
  intros Hsh. destruct q as [r c]. unfold Heal.nan_pixels.
  rewrite elem_of_np_where. intros (v & Hv & _). by eapply get2_lt.
Qed.

Lemma heal_pass_total self nr nc :
  healable self nr nc -> 2 <= nr -> 2 <= nc ->
  is_Some (Heal.heal_pass self (Heal.nan_pixels self)).
Proof.
  intros (Hphi & Hphi1 & Hg) Hnr Hnc.
  apply heal_pass_is_Some; eapply copy_pass_is_Some; try done;
    intros q Hq; by eapply nan_pixels_bounds.
Qed.

End HealPass.

Section HealLoop.



Lemma heal_pass_healable self idx self' nr nc :
  Heal.heal_pass self idx = Some self' -> healable self nr nc -> healable self' nr nc.
Proof.
  intros (Hphi & Hphi1 & Hg & _)%heal_pass_arrays (? & ? & ?).
  split_and!; by eapply copy_pass_shape.
Qed.





Lemma all_nan22_undefined : all_undefined all_nan22.
Proof.
  intros r c g.
  destruct r as [|[|r]]; destruct c as [|[|c]]; try done;
    by intros [= <-].
Qed.

End HealLoop.

(** ** Flips and slices *)

Section Flips.

Implicit Types (a : array2) (r c nr nc : nat).

Lemma np_fliplr_shape a nr nc : shape a nr nc -> shape (np_fliplr a) nr nc.
Proof.
  intros [Hn Hrows]. split.
  - unfold np_fliplr. by rewrite length_map.
  - unfold np_fliplr. apply Forall_map. eapply Forall_impl; [done|].
    intros row Hrow. simpl. by rewrite length_reverse.
Qed.

Lemma np_flipud_shape a nr nc : shape a nr nc -> shape (np_flipud a) nr nc.
Proof.
  intros [Hn Hrows]. split.
  - unfold np_flipud. by rewrite length_reverse.
  - unfold np_flipud. by apply Forall_reverse.
Qed.

Lemma get2_np_fliplr a nr nc r c :
  shape a nr nc -> c < nc -> get2 (np_fliplr a) r c = get2 a r (nc - S c).
Proof.
  intros [Hn Hrows] Hc. unfold get2, np_fliplr.
  change (map reverse a) with (reverse <$> a).
  rewrite list_lookup_fmap.
  destruct (a !! r) as [row|] eqn:Hr; simpl; [|done].
  rewrite Forall_lookup in Hrows. specialize (Hrows _ _ Hr).
  rewrite reverse_lookup by lia. by rewrite Hrows.
Qed.

Lemma get2_np_flipud a nr nc r c :
  shape a nr nc -> r < nr -> get2 (np_flipud a) r c = get2 a (nr - S r) c.
Proof.
  intros [Hn Hrows] Hr. unfold get2, np_flipud.
  rewrite reverse_lookup by lia. by rewrite Hn.
Qed.

Lemma py_slice_length {A} (l : list A) lo hi :
  exists n, forall l' : list A, length l' = length l -> length (py_slice l' lo hi) = n.
Proof.
  exists (length (py_slice l lo hi)). intros l' Hl'.
  unfold py_slice. rewrite !length_take, !length_drop, Hl'. done.
Qed.

Lemma slice2_shape a nr nc ymin ymax xmin xmax :
  shape a nr nc -> exists nr' nc', shape (slice2 a ymin ymax xmin xmax) nr' nc'.
Proof.
  intros [Hn Hrows].
  exists (length (py_slice a ymin ymax)).
  destruct (py_slice_length (replicate nc 0%float) xmin xmax) as [n Hl].
  exists n. split.
  - unfold slice2. by rewrite length_map.
  - unfold slice2. apply Forall_map.
    assert (Hsub : Forall (fun row : list float => length row = nc)
                     (py_slice a ymin ymax)).
    { unfold py_slice. by apply Forall_take, Forall_drop. }
    eapply Forall_impl; [exact Hsub|]. intros row Hrow. simpl.
    apply Hl. by rewrite length_replicate.
Qed.

End Flips.

(** ** The boundary mask and the labels *)

Section Boundary.

Variable grain_label : array2 -> float -> array2.
Hypothesis grain_label_shape : keeps_shape grain_label.

Lemma mask_boundary_spec micro_field labels g nr nc :
  shape micro_field nr nc -> shape labels nr nc ->
  Aita.mask_boundary micro_field labels = Some g ->
  shape g nr nc
  /\ forall r c m, get2 micro_field r c = Some m -> (m =? 1)%float = true ->
       get2 g r c = Some nan.
Proof.
  unfold Aita.mask_boundary. intros Hm Hl Hg. split.
  - by eapply assign_shape.
  - intros r c m Hget H1. eapply assign_get2_in; [done|].
    apply elem_of_np_where. eauto.
Qed.

Lemma mask_boundary_total micro_field labels nr nc :
  shape micro_field nr nc -> shape labels nr nc ->
  is_Some (Aita.mask_boundary micro_field labels).
Proof.
  intros Hm Hl. apply assign_is_Some.
  intros r c (m & Hget & _)%elem_of_np_where.
  by eapply (same_shape_get2 micro_field).
Qed.

Lemma init_boundary phi1_field phi_field qua_field micro_field resolution nr nc :
  shape micro_field nr nc ->
  exists self,
    Aita.__init__ grain_label phi1_field phi_field qua_field micro_field resolution
    = Ok self
    /\ same_grid self /\ boundary_undefined self.
Proof.
  intros Hm. unfold Aita.__init__.
  pose proof (grain_label_shape _ resolution _ _ Hm) as Hl.
  destruct (mask_boundary_total _ _ _ _ Hm Hl) as [g Hg]. rewrite Hg.
  destruct (mask_boundary_spec _ _ _ _ _ Hm Hl Hg) as [Hsh Hnan].
  eexists. split; [done|]. split.
  - by exists nr, nc.
  - intros r c m Hget H1. exists nan. split; [by eapply Hnan|done].
Qed.

Lemma crop_boundary self ymin ymax xmin xmax nr nc :
  shape (micro self) nr nc ->
  exists self',
    Aita.crop grain_label self ymin ymax xmin xmax = Ok self'
    /\ same_grid self' /\ boundary_undefined self'.
Proof.
  intros Hm. unfold Aita.crop.
  destruct (slice2_shape _ _ _ ymin ymax xmin xmax Hm) as (nr' & nc' & Hm').
  pose proof (grain_label_shape _ (res self) _ _ Hm') as Hl.
  destruct (mask_boundary_total _ _ _ _ Hm' Hl) as [g Hg]. rewrite Hg.
  destruct (mask_boundary_spec _ _ _ _ _ Hm' Hl Hg) as [Hsh Hnan].
  eexists. split; [done|]. split.
  - by exists nr', nc'.
  - intros r c m Hget H1. exists nan. split; [by eapply Hnan|done].
Qed.

Lemma fliplr_boundary self :
  same_grid self -> boundary_undefined self ->
  same_grid (Aita.fliplr self) /\ boundary_undefined (Aita.fliplr self).
Proof.
  intros (nr & nc & Hm & Hg) Hb. split.
  - exists nr, nc. split; by apply np_fliplr_shape.
  - intros r c m. simpl. intros Hget H1.
    destruct (get2_lt _ _ _ _ _ _ (np_fliplr_shape _ _ _ Hm) Hget) as [Hr Hc].
    rewrite (get2_np_fliplr _ nr nc) in Hget by done.
    rewrite (get2_np_fliplr _ nr nc) by done. by eapply Hb.
Qed.

Lemma rot180_boundary self :
  same_grid self -> boundary_undefined self ->
  same_grid (Aita.rot180 self) /\ boundary_undefined (Aita.rot180 self).
Proof.
  intros (nr & nc & Hm & Hg) Hb. split.
  - exists nr, nc. split; by apply np_flipud_shape, np_fliplr_shape.
  - intros r c m. simpl. intros Hget H1.
    pose proof (np_fliplr_shape _ _ _ Hm) as Hm'.
    pose proof (np_fliplr_shape _ _ _ Hg) as Hg'.
    destruct (get2_lt _ _ _ _ _ _ (np_flipud_shape _ _ _ Hm') Hget) as [Hr Hc].
    rewrite (get2_np_flipud _ nr nc) in Hget by done.
    rewrite (get2_np_fliplr _ nr nc) in Hget by done.
    rewrite (get2_np_flipud _ nr nc) by done.
    rewrite (get2_np_fliplr _ nr nc) by done. by eapply Hb.
Qed.

End Boundary.

(** ** Grain averaging *)

Section MeanGrain.

Implicit Types (g a : array2) (l : list nat).

Lemma take_at_ext a a1 idx :
  (forall r c, (r, c) ∈ idx -> get2 a1 r c = get2 a r c) ->
  take_at a1 idx = take_at a idx.
Proof.
  induction idx as [|[r c] t IH]; intros Hext; simpl; [done|].
  rewrite (Hext r c) by left. rewrite IH; [done|].
  intros r' c' ?. apply Hext. by right.
Qed.

Lemma mean_step_array_shape g a i a' nr nc :
  mean_step_array g a i = Some a' -> shape a nr nc -> shape a' nr nc.
Proof.
  unfold mean_step_array. destruct (take_at a _) as [vs|]; [|done].
  apply assign_shape.
Qed.

Lemma mean_step_array_total g a i nr nc :
  shape g nr nc -> shape a nr nc -> is_Some (mean_step_array g a i).
Proof.
  intros Hg Ha. unfold mean_step_array.
  assert (Hidx : forall r c, (r, c) ∈ label_pixels g i -> is_Some (get2 a r c)).
  { intros r c (v & Hv & _)%elem_of_np_where. by eapply (same_shape_get2 g). }
  destruct (take_at_is_Some a _ Hidx) as [vs ->]. by apply assign_is_Some.
Qed.

Lemma mean_loop_array_total g a l nr nc :
  shape g nr nc -> shape a nr nc -> is_Some (mean_loop_array g a l).
Proof.
  intros Hg. revert a. induction l as [|i t IH]; intros a Ha; simpl; [done|].
  destruct (mean_step_array_total g a i nr nc Hg Ha) as [a1 Ha1].
  rewrite Ha1. apply IH. by eapply mean_step_array_shape.
Qed.

(** The loop over grain numbers whose pixel sets are pairwise disjoint:
    the pixels of a listed grain hold the mean of the values the grain
    had before the loop, and every other pixel is as it was. *)
Lemma mean_loop_array_spec g a l a' :
  NoDup l ->
  (forall i j r c, i ∈ l -> j ∈ l ->
     (r, c) ∈ label_pixels g i -> (r, c) ∈ label_pixels g j -> i = j) ->
  mean_loop_array g a l = Some a' ->
  (forall i r c, i ∈ l -> (r, c) ∈ label_pixels g i ->
     exists vs, take_at a (label_pixels g i) = Some vs
                /\ get2 a' r c = Some (np_nanmean vs))
  /\ (forall r c, (forall i, i ∈ l -> (r, c) ∉ label_pixels g i) ->
        get2 a' r c = get2 a r c).
Proof.
  revert a. induction l as [|i t IH]; intros a Hnd Hdisj; simpl.
  - intros [= <-]. split; [|done]. intros i r c H. by apply elem_of_nil in H.
  - destruct (mean_step_array g a i) as [a1|] eqn:Hstep; [|done].
    intros Hloop. apply NoDup_cons in Hnd as [Hi Hnd].
    destruct (IH a1 Hnd) as [IH1 IH2]; [|done|].
    { intros j k r c Hj Hk. apply Hdisj; by right. }
    unfold mean_step_array in Hstep.
    destruct (take_at a (label_pixels g i)) as [vs|] eqn:Hvs; [|done].
    split.
    + intros j r c Hj Hin. apply elem_of_cons in Hj as [->|Hj].
      * exists vs. split; [done|]. rewrite IH2.
        -- by eapply assign_get2_in.
        -- intros k Hk Hin'. apply Hi.
           by rewrite (Hdisj i k r c ltac:(left) ltac:(by right) Hin Hin').
      * destruct (IH1 j r c Hj Hin) as (vs' & Hvs' & Hget).
        exists vs'. split; [|done]. rewrite <- Hvs'. symmetry.
        apply take_at_ext. intros r' c' Hin'.
        eapply assign_get2_notin; [done|]. intros Hin''.
        apply Hi. by rewrite (Hdisj i j r' c' ltac:(left) ltac:(by right) Hin'' Hin').
    + intros r c Hout. rewrite IH2.
      * eapply assign_get2_notin; [done|]. apply Hout. by left.
      * intros k Hk. apply Hout. by right.
Qed.

(** The loop on the object is the loop on phi and on phi1. *)
Lemma mean_grain_loop_arrays self l self' :
  Aita.mean_grain_loop self l = Some self' ->
  mean_loop_array (grains self) (phi self) l = Some (phi self')
  /\ mean_loop_array (grains self) (phi1 self) l = Some (phi1 self')
  /\ qua self' = qua self /\ micro self' = micro self
  /\ grains self' = grains self /\ res self' = res self.
Proof.
  revert self. induction l as [|i t IH]; intros self; simpl.
  - by intros [= <-].
  - unfold Aita.mean_grain_step, mean_step_array, Aita.grain_pixels.
    fold (label_pixels (grains self) i).
    destruct (take_at (phi self) _) as [vs|]; [|done].
    destruct (assign (phi self) _ _) as [a|]; [|done].
    destruct (take_at (phi1 self) _) as [vs1|]; [|done].
    destruct (assign (phi1 self) _ _) as [b|]; [|done].
    intros H. apply IH in H. simpl in H. done.
Qed.

Lemma mean_grain_loop_total self l nr nc :
  shape (phi self) nr nc -> shape (phi1 self) nr nc -> shape (grains self) nr nc ->
  is_Some (Aita.mean_grain_loop self l).
Proof.
  revert self. induction l as [|i t IH]; intros self Hphi Hphi1 Hg; simpl; [done|].
  destruct (mean_step_array_total (grains self) (phi self) i nr nc Hg Hphi)
    as [a Ha].
  destruct (mean_step_array_total (grains self) (phi1 self) i nr nc Hg Hphi1)
    as [b Hb].
  pose proof (mean_step_array_shape _ _ _ _ _ _ Ha Hphi) as Hsa.
  pose proof (mean_step_array_shape _ _ _ _ _ _ Hb Hphi1) as Hsb.
  unfold mean_step_array in Ha, Hb.
  unfold Aita.mean_grain_step, Aita.grain_pixels.
  fold (label_pixels (grains self) i).
  destruct (take_at (phi self) _) as [vs|]; [|done]. rewrite Ha.
  destruct (take_at (phi1 self) _) as [vs1|]; [|done]. rewrite Hb.
  by apply IH.
Qed.

Lemma mean_grain_Ok self self' :
  Aita.mean_grain self = Ok self' ->
  exists nb, Aita.nb_grain self = Some nb
    /\ Aita.mean_grain_loop self (seq 0 (Z.to_nat (nb + 1))) = Some self'.
Proof.
  unfold Aita.mean_grain. destruct (Aita.nb_grain self) as [nb|]; [|done].
  destruct (Aita.mean_grain_loop self _) as [s|] eqn:Hl; [|done].
  intros [= <-]. by exists nb.
Qed.

Lemma mean_grain_boundary self self' :
  Aita.mean_grain self = Ok self' ->
  same_grid self -> boundary_undefined self ->
  same_grid self' /\ boundary_undefined self'.
Proof.
  intros (nb & _ & Hl)%mean_grain_Ok.
  destruct (mean_grain_loop_arrays _ _ _ Hl) as (_ & _ & _ & Hm & Hg & _).
  unfold same_grid, boundary_undefined. by rewrite Hm, Hg.
Qed.

Lemma label_pixels_disjoint g nb i j r c :
  labels_distinct nb -> (Z.of_nat i <= nb)%Z -> (Z.of_nat j <= nb)%Z ->
  (r, c) ∈ label_pixels g i -> (r, c) ∈ label_pixels g j -> i = j.
Proof.
  intros Hd Hi Hj (v & Hv & Hvi)%elem_of_np_where (w & Hw & Hwj)%elem_of_np_where.
  apply Hd; [done..|]. assert (w = v) as -> by congruence.
  by eapply eqb_eqb.
Qed.

End MeanGrain.

(** ** Exact arithmetic *)

Section ExactFacts.

Local Open Scope R_scope.







Lemma map_flipud {A B} (f : A -> B) (a : list A) :
  map f (reverse a) = reverse (map f a).
Proof. apply (fmap_reverse f). Qed.







End ExactFacts.

(** ** The orientation tensor without samples *)

Section PlotpdfFacts.

Variables libm_cos libm_sin : float -> float.
Variable geev : list (list float) -> list float.

Lemma mul_nan_r (x : float) : (x * nan)%float = nan.
Proof.
  apply Prim2SF_inj. rewrite mul_spec. unfold SF64mul.
  by destruct (Prim2SF x).
Qed.

Lemma mul_nan_l (x : float) : (nan * x)%float = nan.
Proof. apply Prim2SF_inj. by rewrite mul_spec. Qed.

(** The mean of an array of NaN is NaN. *)
Lemma np_nanmean_all_nan (l : list float) :
  Forall (fun x => x = nan) l -> np_nanmean l = nan.
Proof.
  intros Hl. unfold np_nanmean.
  assert (Hsum : fold_left (fun acc x => (acc + (if is_nan x then 0 else x))%float)
                   l 0%float = 0%float).
  { induction Hl as [|x l -> Hl IH]; simpl; [done|]. exact IH. }
  assert (Hcnt : List.filter (fun x => negb (is_nan x)) l = []).
  { clear Hsum. induction Hl as [|x l -> Hl IH]; simpl; [done|]. exact IH. }
  rewrite Hsum, Hcnt. reflexivity.
Qed.

Lemma component_xc_nan (s : list (float * float)) :
  Forall (fun p => p.2 = nan) s ->
  Plotpdf.component (Plotpdf.xc libm_cos libm_sin) (Plotpdf.xc libm_cos libm_sin) s
  = nan.
Proof.
  intros Hs. unfold Plotpdf.component.
  rewrite np_nanmean_all_nan; [reflexivity|].
  induction Hs as [|p s Hp Hs IH]; simpl; constructor; [|done].
  unfold Plotpdf.xc, Plotpdf.np_sin. rewrite Hp. simpl.
  by rewrite !mul_nan_r.
Qed.

(** A tensor whose first entry is NaN is refused by the eigen-solver. *)
Lemma plotpdf_nan_tensor (s : list (float * float)) :
  Forall (fun p => p.2 = nan) s ->
  Plotpdf.np_linalg_eig geev (Plotpdf.orientation_tensor libm_cos libm_sin s)
  = Raise LinAlgError.
Proof.
  intros Hs. unfold Plotpdf.np_linalg_eig, Plotpdf.orientation_tensor.
  rewrite (component_xc_nan s Hs). reflexivity.
Qed.

Lemma take_at_values (a : array2) idx vs v :
  take_at a idx = Some vs -> v ∈ vs -> exists r c, get2 a r c = Some v.
Proof.
  revert vs. induction idx as [|[r c] t IH]; intros vs; simpl.
  - intros [= <-] H. by apply elem_of_nil in H.
  - destruct (get2 a r c) as [x|] eqn:Hx; [|done].
    destruct (take_at a t) as [xs|]; [|done].
    intros [= <-] [->|Hin]%elem_of_cons; [eauto|]. by eapply IH.
Qed.

Lemma concat_values (a : array2) v :
  v ∈ concat a -> exists r c, get2 a r c = Some v.
Proof.
  intros Hin%list_elem_of_In. apply in_concat in Hin as (row & Hrow & Hv).
  apply list_elem_of_In in Hrow, Hv.
  apply list_elem_of_lookup in Hrow as [r Hr].
  apply list_elem_of_lookup in Hv as [c Hc].
  exists r, c. unfold get2. by rewrite Hr.
Qed.

Lemma zip_snd_Forall {A} (P : float -> Prop) (l : list A) (k : list float) :
  Forall P k -> Forall (fun p => P p.2) (zip l k).
Proof.
  intros Hk. revert l. induction Hk as [|y k Hy Hk IH]; intros [|x l];
    simpl; constructor; [done|apply IH].
Qed.

Lemma samples_of_nan self label s :
  no_colatitude self -> Plotpdf.samples_of self label = Some s ->
  Forall (fun p => p.2 = nan) s.
Proof.
  intros Hno. revert s. induction label as [|l t IH]; intros s; simpl.
  - intros [= <-]. constructor.
  - destruct (take_at (phi1 self) _) as [a|]; [|done].
    destruct (take_at (phi self) _) as [c|] eqn:Hc; [|done].
    destruct (Plotpdf.samples_of self t) as [rest|]; [|done].
    intros [= <-]. apply Forall_app. split; [|by apply IH].
    apply (zip_snd_Forall (fun v => v = nan)). apply Forall_forall.
    intros v Hv. destruct (take_at_values _ _ _ _ Hc Hv) as (r & c' & Hget).
    apply is_nan_eq. by eapply Hno.
Qed.

Lemma samples_nan self grainlist s :
  no_colatitude self -> Plotpdf.samples self grainlist = Ok s ->
  Forall (fun p => p.2 = nan) s.
Proof.
  intros Hno. destruct grainlist as [label|]; simpl.
  - unfold Plotpdf.samples_grains. destruct label as [|l t]; [done|].
    destruct (Plotpdf.samples_of self (l :: t)) as [s'|] eqn:Hs; [|done].
    intros [= <-]. by eapply samples_of_nan.
  - unfold Plotpdf.samples_all. case_decide; [|done]. intros [= <-].
    apply (zip_snd_Forall (fun v => v = nan)). apply Forall_forall.
    intros v Hv. destruct (concat_values _ _ Hv) as (r & c & Hget).
    apply is_nan_eq. by eapply Hno.
Qed.

Lemma samples_error self grainlist e :
  Plotpdf.samples self grainlist = Raise e -> e = ValueError \/ e = IndexError.
Proof.
  destruct grainlist as [label|]; simpl.
  - unfold Plotpdf.samples_grains. destruct label as [|l t]; [intros [= <-]; by left|].
    destruct (Plotpdf.samples_of self (l :: t)); [done|]. intros [= <-]. by right.
  - unfold Plotpdf.samples_all. case_decide; [done|]. intros [= <-]. by left.
Qed.

(** Without a defined colatitude, [plotpdf] ends on an error of numpy. *)
Lemma plotpdf_no_colatitude self grainlist :
  no_colatitude self ->
  exists e,
    Plotpdf.plotpdf libm_cos libm_sin geev self grainlist = Raise e
    /\ (e = LinAlgError \/ e = ValueError \/ e = IndexError)
    /\ (forall s, Plotpdf.samples self grainlist = Ok s -> e = LinAlgError).
Proof.
  intros Hno. unfold Plotpdf.plotpdf.
  destruct (Plotpdf.samples self grainlist) as [s|e] eqn:Hs.
  - exists LinAlgError. split_and!; [|by left|done].
    apply plotpdf_nan_tensor. by eapply samples_nan.
  - exists e. split_and!; [done| |done].
    destruct (samples_error _ _ _ Hs) as [->| ->]; auto.
Qed.

End PlotpdfFacts.

Lemma no_measure_no_colatitude : no_colatitude no_measure.
Proof.
  intros r c v. destruct r as [|r]; [|done]. destruct c as [|c]; [|done].
  by intros [= <-].
Qed.

(** ** The definitions on concrete inputs *)

Example fmod_ex : F64.fmod 7.5 2 = 1.5%float /\ F64.fmod (-7.5) 2 = (-1.5)%float
  /\ F64.np_mod (-7.5) 2 = 0.5%float /\ F64.np_mod 7.5 (-2) = (-0.5)%float.
Proof. repeat split; vm_compute; reflexivity. Qed.

Example of_Z_ex : F64.of_Z 3 = 3%float /\ F64.py_int 2.75 = Some 2%Z
  /\ F64.py_int (-2.75) = Some (-2)%Z /\ F64.py_int nan = None.
Proof. repeat split; vm_compute; reflexivity. Qed.

Example mean_grain_two_grains :
  Aita.mean_grain two_grains =
  Ok {| phi1 := [[0.1%float; 0.1%float]; [nan; 3%float]];
        phi := [[0.625%float; 0.625%float]; [nan; 1%float]];
        qua := qua two_grains; micro := micro two_grains;
        grains := grains two_grains; res := 1%float |}.
Proof. vm_compute. reflexivity. Qed.

Example flip_twice_ex :
  Aita.flip_phi1 (Aita.flip_phi1 0.1) = 0x1.99999999999a0p-4%float
  /\ Aita.rot_phi1 (Aita.rot_phi1 0.1) = 0.09999999999999964%float
  /\ Aita.flip_phi1 (Aita.flip_phi1 0.5) = 0.5%float.
Proof. repeat split; vm_compute; reflexivity. Qed.

Example craft_heal_one_hole :
  Heal.craft_heal 1 one_hole =
  Some (Ok {| phi1 := field44 1; phi := field44 1; qua := field44 6;
              micro := field44 6; grains := field44 1; res := 1%float |}).
Proof. vm_compute. reflexivity. Qed.

Example craft_heal_all_nan22 :
  Heal.heal_pass all_nan22 (Heal.nan_pixels all_nan22) = Some all_nan22
  /\ Heal.craft_heal 50 all_nan22 = None.
Proof. split; vm_compute; reflexivity. Qed.

Example isInsideTriangle_docstring :
  isInsideTriangle (0, 0)%float (-1, 0)%float (0, 1)%float (1, 0)%float = true
  /\ isInsideTriangle (0%float, (-0.1)%float) (-1, 0)%float (0, 1)%float (1, 0)%float
     = false.
Proof. split; vm_compute; reflexivity. Qed.

(** * The claims *)

(** ** Boundary healing *)

(** C3: one healing pass of [craft] gives every undefined pixel (row r,
    column c) the label and the two orientation angles of its donor, the
    pixel at row (r+1 if r = 0, else r-1) and column (c+1 if c = 0, else
    c-1).  The arrays are written in place and in row-major order, so a
    pixel of the first row receives what its donor held before the pass
    and any other pixel what its donor holds after the pass; when the
    donor was defined before the pass these are the donor's original
    values.  Defined pixels are left as they are. *)
Theorem heal_pass_copies_donor (self : aita) (nr nc : nat) :
  healable self nr nc -> 2 <= nr -> 2 <= nc ->
  exists self',
    Heal.heal_pass self (Heal.nan_pixels self) = Some self'
    /\ (forall r c g,
          get2 (grains self) r c = Some g -> F64.np_isnan g = true ->
          pixel self' r c
          = pixel (if decide (r = 0) then self else self') (Heal.donor r) (Heal.donor c)
          /\ (forall gd,
                get2 (grains self) (Heal.donor r) (Heal.donor c) = Some gd ->
                F64.np_isnan gd = false ->
                pixel self' r c = pixel self (Heal.donor r) (Heal.donor c)))
    /\ (forall r c g,
          get2 (grains self) r c = Some g -> F64.np_isnan g = false ->
          pixel self' r c = pixel self r c).
Proof.
  intros Hh Hnr Hnc.
  destruct (heal_pass_total self nr nc Hh Hnr Hnc) as [self' Hp].
  exists self'. split; [done|].
  destruct (heal_pass_arrays _ _ _ Hp) as (Hphi & Hphi1 & Hg & _).
  pose proof (where_from_sorted F64.np_isnan 0 (grains self)) as Hsort.
  fold (np_where F64.np_isnan (grains self)) in Hsort.
  fold (Heal.nan_pixels self) in Hsort.
  split.
  - intros r c g Hget Hnan.
    assert (Hin : (r, c) ∈ Heal.nan_pixels self)
      by (apply elem_of_np_where; eauto).
    destruct (copy_pass_sorted _ _ _ (r, c) Hsort Hphi Hin) as [H1 H1'].
    destruct (copy_pass_sorted _ _ _ (r, c) Hsort Hphi1 Hin) as [H2 H2'].
    destruct (copy_pass_sorted _ _ _ (r, c) Hsort Hg Hin) as [H3 H3'].
    simpl in *. split.
    + unfold pixel. rewrite H1, H2, H3. by case_decide.
    + intros gd Hgd Hdef.
      assert (Hd : (Heal.donor r, Heal.donor c) ∉ Heal.nan_pixels self).
      { intros (v & Hv & Hvn)%elem_of_np_where. congruence. }
      unfold pixel. by rewrite H1', H2', H3'.
  - intros r c g Hget Hdef.
    assert (Hout : (r, c) ∉ Heal.nan_pixels self).
    { intros (v & Hv & Hvn)%elem_of_np_where. congruence. }
    unfold pixel.
    rewrite (copy_pass_outside _ _ _ r c Hphi Hout),
      (copy_pass_outside _ _ _ r c Hphi1 Hout),
      (copy_pass_outside _ _ _ r c Hg Hout). done.
Qed.

(** The scenario of C3: on the 4 by 4 field whose only undefined pixel is
    (1,1), the pass gives that pixel the values of pixel (0,0). *)
Lemma heal_pass_copies_donor_scenario :
  exists self',
    Heal.heal_pass one_hole (Heal.nan_pixels one_hole) = Some self'
    /\ pixel self' 1 1 = pixel one_hole 0 0
    /\ pixel one_hole 0 0 = (Some 1%float, Some 1%float, Some 1%float).
Proof.
  destruct (heal_pass_copies_donor one_hole 4 4) as (self' & Hp & Hcopy & _).
  - repeat split; repeat constructor.
  - lia.
  - lia.
  - exists self'. split; [exact Hp|]. split; [|reflexivity].
    destruct (Hcopy 1 1 nan eq_refl eq_refl) as [_ Hdonor].
    exact (Hdonor 1%float eq_refl eq_refl).
Defined.




(** ** Quality filtering *)

Section Filter.

(** What [filter] returns, array by array. *)
Lemma filter_Ok self value self' :
  Aita.filter self value = Ok self' ->
  let x := np_where (fun q => (q <? value)%float) (qua self) in
  assign (phi self) x nan = Some (phi self')
  /\ assign (phi1 self) x nan = Some (phi1 self')
  /\ qua self' = qua self /\ micro self' = micro self
  /\ grains self' = grains self /\ res self' = res self.
Proof.
  unfold Aita.filter.
  destruct (assign (phi self) _ nan) as [a|]; [|done].
  destruct (assign (phi1 self) _ nan) as [b|]; [|done].
  by intros [= <-].
Qed.

Lemma filter_total self value nr nc :
  shape (phi self) nr nc -> shape (phi1 self) nr nc -> shape (qua self) nr nc ->
  exists self', Aita.filter self value = Ok self'.
Proof.
  intros Hphi Hphi1 Hqua. unfold Aita.filter.
  set (x := np_where _ _).
  assert (Hx : forall a, shape a nr nc ->
               forall r c, (r, c) ∈ x -> is_Some (get2 a r c)).
  { intros a Ha r c (q & Hq & _)%elem_of_np_where.
    by eapply (same_shape_get2 (qua self)). }
  destruct (assign_is_Some (phi self) x nan (Hx _ Hphi)) as [a ->].
  destruct (assign_is_Some (phi1 self) x nan (Hx _ Hphi1)) as [b ->].
  by eexists.
Qed.

Lemma filter_pixel self value self' r c q :
  Aita.filter self value = Ok self' -> get2 (qua self) r c = Some q ->
  if (q <? value)%float
  then get2 (phi self') r c = Some nan /\ get2 (phi1 self') r c = Some nan
  else get2 (phi self') r c = get2 (phi self) r c
       /\ get2 (phi1 self') r c = get2 (phi1 self) r c.
Proof.
  intros (Hphi & Hphi1 & _)%filter_Ok Hq.
  destruct (q <? value)%float eqn:Hlt.
  - assert ((r, c) ∈ np_where (fun q => (q <? value)%float) (qua self))
      by (apply elem_of_np_where; eauto).
    split; by eapply assign_get2_in.
  - assert ((r, c) ∉ np_where (fun q => (q <? value)%float) (qua self)).
    { intros (q' & Hq' & Hlt')%elem_of_np_where. congruence. }
    split; by eapply assign_get2_notin.
Qed.

End Filter.

(** C9: [filter(value)] returns, on arrays of one shape, an object whose
    quality field, microstructure mask, grain labels and resolution are
    those it was given; phi and phi1 are NaN at the pixels whose quality is
    below [value] and unchanged at all others. *)
Theorem filter_only_nulls_orientation (self : aita) (value : float) (nr nc : nat) :
  shape (phi self) nr nc -> shape (phi1 self) nr nc -> shape (qua self) nr nc ->
  exists self',
    Aita.filter self value = Ok self'
    /\ qua self' = qua self /\ micro self' = micro self
    /\ grains self' = grains self /\ res self' = res self
    /\ forall r c q,
         get2 (qua self) r c = Some q ->
         if (q <? value)%float
         then get2 (phi self') r c = Some nan /\ get2 (phi1 self') r c = Some nan
         else get2 (phi self') r c = get2 (phi self) r c
              /\ get2 (phi1 self') r c = get2 (phi1 self) r c.
Proof.
  intros Hphi Hphi1 Hqua.
  destruct (filter_total self value nr nc Hphi Hphi1 Hqua) as [self' Hf].
  exists self'. split; [done|].
  destruct (filter_Ok _ _ _ Hf) as (_ & _ & ? & ? & ? & ?).
  split_and!; try done.
  intros r c q. by apply filter_pixel.
Qed.

Lemma filter_only_nulls_orientation_witness :
  exists self',
    Aita.filter two_grains 75 = Ok self'
    /\ qua self' = qua two_grains /\ micro self' = micro two_grains
    /\ grains self' = grains two_grains /\ res self' = res two_grains
    /\ forall r c q,
         get2 (qua two_grains) r c = Some q ->
         if (q <? 75)%float
         then get2 (phi self') r c = Some nan /\ get2 (phi1 self') r c = Some nan
         else get2 (phi self') r c = get2 (phi two_grains) r c
              /\ get2 (phi1 self') r c = get2 (phi1 two_grains) r c.
Proof.
  apply (filter_only_nulls_orientation two_grains 75 2 2);
    repeat split; repeat constructor.
Defined.

(** C10: the comparison of [filter] is strict.  A pixel whose quality
    equals the threshold keeps phi and phi1; a pixel loses them exactly
    when its quality is below the threshold. *)
Theorem filter_threshold_is_strict (self self' : aita) (value : float)
  (r c : nat) (q : float) :
  Aita.filter self value = Ok self' -> get2 (qua self) r c = Some q ->
  ((q =? value)%float = true ->
     get2 (phi self') r c = get2 (phi self) r c
     /\ get2 (phi1 self') r c = get2 (phi1 self) r c)
  /\ ((q <? value)%float = true ->
        get2 (phi self') r c = Some nan /\ get2 (phi1 self') r c = Some nan)
  /\ ((q <? value)%float = false ->
        get2 (phi self') r c = get2 (phi self) r c
        /\ get2 (phi1 self') r c = get2 (phi1 self) r c).
Proof.
  intros Hf Hq. pose proof (filter_pixel _ _ _ _ _ _ Hf Hq) as Hpix.
  split_and!.
  - intros Heq%eqb_not_ltb. by rewrite Heq in Hpix.
  - intros Hlt. by rewrite Hlt in Hpix.
  - intros Hlt. by rewrite Hlt in Hpix.
Qed.

(** Pixel (1,1) of [two_grains] has quality 70: filtering at 70 keeps its
    orientation, while pixel (1,0), of quality 10, loses it. *)
Lemma filter_threshold_is_strict_witness :
  exists self',
    Aita.filter two_grains 70 = Ok self'
    /\ get2 (phi self') 1 1 = Some 1%float
    /\ get2 (phi1 self') 1 1 = Some 3%float
    /\ get2 (phi self') 1 0 = Some nan.
Proof.
  assert (Hf : Aita.filter two_grains 70
               = Ok {| phi1 := [[0%float; 0.2%float]; [nan; 3%float]];
                       phi := [[0.5%float; 0.75%float]; [nan; 1%float]];
                       qua := qua two_grains; micro := micro two_grains;
                       grains := grains two_grains; res := 1%float |})
    by reflexivity.
  eexists. split; [exact Hf|].
  destruct (filter_threshold_is_strict two_grains _ 70 1 1 70 Hf eq_refl)
    as (Hkeep & _ & _).
  destruct (filter_threshold_is_strict two_grains _ 70 1 0 10 Hf eq_refl)
    as (_ & Hnull & _).
  destruct (Hkeep eq_refl) as [H1 H2]. destruct (Hnull eq_refl) as [H3 _].
  split_and!; [exact H1 | exact H2 | exact H3].
Defined.

(** ** Grain labels *)

Lemma one_grain_keeps_shape : keeps_shape one_grain.
Proof.
  intros m resolution nr nc [Hn Hrows]. split.
  - unfold one_grain. by rewrite length_map.
  - unfold one_grain. apply Forall_map. eapply Forall_impl; [done|].
    intros row Hrow. simpl. by rewrite length_map.
Qed.

(** C8: every pixel where the mask equals 1 has a NaN label.  For a
    labelling that returns a field of the shape of the mask, the
    constructor and [crop] establish this on a rectangular mask, and
    [fliplr], [rot180] and [mean_grain] keep it. *)
Theorem boundary_pixels_undefined (grain_label : array2 -> float -> array2) :
  keeps_shape grain_label ->
  (forall phi1_field phi_field qua_field micro_field resolution nr nc,
     shape micro_field nr nc ->
     exists self,
       Aita.__init__ grain_label phi1_field phi_field qua_field micro_field resolution
       = Ok self
       /\ same_grid self /\ boundary_undefined self)
  /\ (forall self ymin ymax xmin xmax nr nc,
        shape (micro self) nr nc ->
        exists self',
          Aita.crop grain_label self ymin ymax xmin xmax = Ok self'
          /\ same_grid self' /\ boundary_undefined self')
  /\ (forall self,
        same_grid self -> boundary_undefined self ->
        same_grid (Aita.fliplr self) /\ boundary_undefined (Aita.fliplr self))
  /\ (forall self,
        same_grid self -> boundary_undefined self ->
        same_grid (Aita.rot180 self) /\ boundary_undefined (Aita.rot180 self))
  /\ (forall self self',
        Aita.mean_grain self = Ok self' ->
        same_grid self -> boundary_undefined self ->
        same_grid self' /\ boundary_undefined self').
Proof.
  intros Hlabel. split_and!.
  - intros ? ? ? ? ? nr nc Hm. by apply (init_boundary _ Hlabel _ _ _ _ _ nr nc).
  - intros ? ? ? ? ? nr nc Hm. by apply (crop_boundary _ Hlabel _ _ _ _ _ nr nc).
  - apply fliplr_boundary.
  - apply rot180_boundary.
  - apply mean_grain_boundary.
Qed.

(** The constructor on the mask of [two_grains], then a mirror and a half
    turn: the boundary pixel, now at (0,0), has a NaN label. *)
Lemma boundary_pixels_undefined_witness :
  exists self,
    Aita.__init__ one_grain (phi1 two_grains) (phi two_grains) (qua two_grains)
      (micro two_grains) 1 = Ok self
    /\ boundary_undefined self
    /\ boundary_undefined (Aita.rot180 (Aita.fliplr self)).
Proof.
  destruct (boundary_pixels_undefined one_grain one_grain_keeps_shape)
    as (Hinit & _ & Hflip & Hrot & _).
  destruct (Hinit (phi1 two_grains) (phi two_grains) (qua two_grains)
              (micro two_grains) 1%float 2 2) as (self & Hself & Hgrid & Hb).
  { repeat split; repeat constructor. }
  exists self. split; [exact Hself|]. split; [exact Hb|].
  destruct (Hflip self Hgrid Hb) as [Hgrid' Hb'].
  exact (proj2 (Hrot _ Hgrid' Hb')).
Defined.



(** ** Angles *)




(** C7: the misorientation angle, arccos of the absolute value of the
    product of the two c-axes, is the same when either vector is negated;
    this holds for all vectors of binary64 values, unit or not, whatever
    the arc cosine. *)
Theorem misorientation_antipodal (np_arccos : float -> float) (v w : list float) :
  Profile.misorientation np_arccos v (Profile.neg w)
  = Profile.misorientation np_arccos v w
  /\ Profile.misorientation np_arccos (Profile.neg v) w
     = Profile.misorientation np_arccos v w.
Proof.
  unfold Profile.misorientation. by rewrite abs_dot_neg_r, abs_dot_neg_l.
Qed.



(** ** The orientation tensor *)

(** C2, as the code has it: [plotpdf] has no test for an empty sample set
    and no EmptySampleSet.  When no pixel has a defined colatitude, so that
    no c-axis is defined, the call returns no result: whenever samples are
    collected (also none at all) the tensor is NaN and the eigen-solver of
    numpy raises LinAlgError, and otherwise collecting the samples raised
    ValueError or IndexError. *)
Theorem plotpdf_without_samples (libm_cos libm_sin : float -> float)
  (geev : list (list float) -> list float) (self : aita)
  (grainlist : option (list float)) :
  no_colatitude self ->
  exists e,
    Plotpdf.plotpdf libm_cos libm_sin geev self grainlist = Raise e
    /\ (e = LinAlgError \/ e = ValueError \/ e = IndexError)
    /\ (forall s, Plotpdf.samples self grainlist = Ok s -> e = LinAlgError).
Proof. apply plotpdf_no_colatitude. Qed.

Lemma plotpdf_without_samples_witness :
  exists e,
    Plotpdf.plotpdf (fun x => x) (fun x => x) (fun _ => []) no_measure None = Raise e
    /\ (e = LinAlgError \/ e = ValueError \/ e = IndexError)
    /\ (forall s, Plotpdf.samples no_measure None = Ok s -> e = LinAlgError).
Proof.
  apply (plotpdf_without_samples _ _ _ no_measure None).
  exact no_measure_no_colatitude.
Defined.

(** C2 fails as stated: on a map of one pixel without measurement the
    call raises LinAlgError, whatever the cosine, the sine and the
    eigen-solver; it does not raise EmptySampleSet. *)
Lemma plotpdf_not_empty_sample_set :
  ~ (exists libm_cos libm_sin geev,
       Plotpdf.plotpdf libm_cos libm_sin geev no_measure None
       = Raise EmptySampleSet).
Proof.
  intros (libm_cos & libm_sin & geev & H).
  destruct (plotpdf_no_colatitude libm_cos libm_sin geev no_measure None
              no_measure_no_colatitude) as (e & He & [->|[->| ->]] & _);
    rewrite He in H; discriminate.
Qed.

(** * Further properties of the code *)

(** ** The healing loop *)

Section HealMore.

Lemma np_where_nil p (a : array2) :
  (forall r c v, get2 a r c = Some v -> p v = false) -> np_where p a = [].
Proof.
  intros Hall. apply elem_of_nil_inv. intros [r c] (v & Hv & Hp)%elem_of_np_where.
  rewrite (Hall r c v Hv) in Hp. discriminate.
Qed.

Lemma heal_pass_defined_kept self self' r c g :
  Heal.heal_pass self (Heal.nan_pixels self) = Some self' ->
  get2 (grains self) r c = Some g -> F64.np_isnan g = false ->
  pixel self' r c = pixel self r c.
Proof.
  intros (Hphi & Hphi1 & Hg & _)%heal_pass_arrays Hget Hdef.
  assert (Hout : (r, c) ∉ Heal.nan_pixels self).
  { intros (v & Hv & Hvn)%elem_of_np_where. congruence. }
  unfold pixel.
  by rewrite (copy_pass_outside _ _ _ r c Hphi Hout),
    (copy_pass_outside _ _ _ r c Hphi1 Hout),
    (copy_pass_outside _ _ _ r c Hg Hout).
Qed.

(** The label a pass leaves at a NaN pixel. *)
Lemma heal_pass_label self self' r c g :
  Heal.heal_pass self (Heal.nan_pixels self) = Some self' ->
  get2 (grains self) r c = Some g -> F64.np_isnan g = true ->
  get2 (grains self') r c
  = (if decide (r = 0) then get2 (grains self) (Heal.donor r) (Heal.donor c)
     else get2 (grains self') (Heal.donor r) (Heal.donor c))
  /\ ((Heal.donor r, Heal.donor c) ∉ Heal.nan_pixels self ->
      get2 (grains self') r c = get2 (grains self) (Heal.donor r) (Heal.donor c)).
Proof.
  intros (_ & _ & Hg & _)%heal_pass_arrays Hget Hnan.
  assert (Hin : (r, c) ∈ Heal.nan_pixels self)
    by (apply elem_of_np_where; eauto).
  pose proof (where_from_sorted F64.np_isnan 0 (grains self)) as Hsort.
  exact (copy_pass_sorted _ _ _ (r, c) Hsort Hg Hin).
Qed.

Lemma heal_loop_Ok fuel self idx self' :
  idx = Heal.nan_pixels self ->
  Heal.heal_loop fuel self idx = Some (Ok self') ->
  Heal.nan_pixels self' = []
  /\ qua self' = qua self /\ micro self' = micro self /\ res self' = res self
  /\ (forall nr nc, healable self nr nc -> healable self' nr nc)
  /\ (forall r c g, get2 (grains self) r c = Some g -> F64.np_isnan g = false ->
        pixel self' r c = pixel self r c).
Proof.
  revert self idx. induction fuel as [|fuel IH]; intros self idx Hidx.
  - destruct idx as [|p t]; simpl; [|done]. intros [= <-]. by split_and!.
  - destruct idx as [|p t]; [simpl; intros [= <-]; by split_and!|].
    cbn [Heal.heal_loop].
    destruct (Heal.heal_pass self (p :: t)) as [s1|] eqn:Hp; [|done].
    intros Hloop. rewrite Hidx in Hp.
    destruct (IH s1 _ eq_refl Hloop) as (Hnil & Hq & Hm & Hr & Hsh & Hkeep).
    destruct (heal_pass_arrays _ _ _ Hp) as (_ & _ & _ & Hq1 & Hm1 & Hr1).
    split_and!; [done|congruence|congruence|congruence| |].
    + intros nr nc Hh. apply Hsh. by eapply heal_pass_healable.
    + intros r c g Hget Hdef.
      pose proof (heal_pass_defined_kept _ _ _ _ _ Hp Hget Hdef) as Hpix.
      rewrite <- Hpix. unfold pixel in Hpix.
      injection Hpix as Hg1 _ _. rewrite Hget in Hg1.
      by eapply Hkeep.
Qed.

End HealMore.

(** X1: on a field without NaN label the healing loop of [craft] makes no
    pass and changes nothing, whatever the shape of the arrays. *)
Theorem craft_heal_no_undefined (fuel : nat) (self : aita) :
  all_defined self -> Heal.craft_heal fuel self = Some (Ok self).
Proof.
  intros Hall. unfold Heal.craft_heal, Heal.nan_pixels.
  rewrite (np_where_nil _ _ Hall). by destruct fuel.
Qed.

Lemma craft_heal_no_undefined_witness :
  Heal.craft_heal 0 two_grains_healed = Some (Ok two_grains_healed).
Proof.
  apply (craft_heal_no_undefined 0 two_grains_healed).
  intros r c g.
  destruct r as [|[|r]]; destruct c as [|[|c]]; try done; by intros [= <-].
Defined.

(** X2: when the healing loop returns, no label of the result is NaN; the
    quality field, the mask and the resolution are those of the input, the
    arrays keep their shape, and every pixel whose label was defined keeps
    its label and its two angles. *)
Theorem craft_heal_result (fuel : nat) (self self' : aita) :
  Heal.craft_heal fuel self = Some (Ok self') ->
  all_defined self'
  /\ qua self' = qua self /\ micro self' = micro self /\ res self' = res self
  /\ (forall nr nc, healable self nr nc -> healable self' nr nc)
  /\ (forall r c g, get2 (grains self) r c = Some g -> F64.np_isnan g = false ->
        pixel self' r c = pixel self r c).
Proof.
  intros Hloop.
  destruct (heal_loop_Ok fuel self _ self' eq_refl Hloop)
    as (Hnil & Hq & Hm & Hr & Hsh & Hkeep).
  split_and!; try done.
  intros r c g Hget. destruct (F64.np_isnan g) eqn:Hnan; [|done].
  assert (Hin : (r, c) ∈ Heal.nan_pixels self')
    by (apply elem_of_np_where; eauto).
  rewrite Hnil in Hin. by apply elem_of_nil in Hin.
Qed.

Lemma craft_heal_result_witness :
  all_defined (mk_aita (field44 1) (field44 1) (field44 6) (field44 6) (field44 1) 1)
  /\ pixel (mk_aita (field44 1) (field44 1) (field44 6) (field44 6) (field44 1) 1) 0 1
     = pixel one_hole 0 1.
Proof.
  destruct (craft_heal_result 1 one_hole
              (mk_aita (field44 1) (field44 1) (field44 6) (field44 6) (field44 1) 1)
              eq_refl) as (Hall & _ & _ & _ & _ & Hkeep).
  split; [exact Hall|]. exact (Hkeep 0 1 2%float eq_refl eq_refl).
Defined.

Section HealEdges.

Lemma get2_row_out (a : array2) nr nc r c : shape a nr nc -> nr <= r -> get2 a r c = None.
Proof.
  intros [Hn _] Hr. unfold get2. rewrite lookup_ge_None_2; [done|lia].
Qed.

Lemma get2_col_out (a : array2) nr nc r c : shape a nr nc -> nc <= c -> get2 a r c = None.
Proof.
  intros [_ Hrows] Hc. unfold get2. destruct (a !! r) as [row|] eqn:Hr; [|done].
  rewrite Forall_lookup in Hrows. apply lookup_ge_None_2.
  by rewrite (Hrows _ _ Hr).
Qed.

(** With a single row or a single column, the donor of a pixel of the
    array lies outside it. *)
Lemma copy_donor_thin (a : array2) nr nc p :
  shape a nr nc -> nr = 1 \/ nc = 1 -> p.1 < nr -> p.2 < nc ->
  Heal.copy_donor a p = None.
Proof.
  intros Ha Hthin Hr Hc. unfold Heal.copy_donor.
  destruct Hthin as [-> | ->].
  - rewrite (get2_row_out a 1 nc); [done|done|].
    unfold Heal.donor. case_decide; lia.
  - rewrite (get2_col_out a nr 1); [done|done|].
    unfold Heal.donor. case_decide; lia.
Qed.

Lemma heal_pass_no_nan self self' :
  Heal.heal_pass self (Heal.nan_pixels self) = Some self' ->
  donors_defined self -> Heal.nan_pixels self' = [].
Proof.
  intros Hp Hdon. apply np_where_nil. intros r c v Hv.
  destruct (heal_pass_arrays _ _ _ Hp) as (_ & _ & Hg & _).
  assert (Hbefore : is_Some (get2 (grains self) r c)).
  { destruct (decide ((r, c) ∈ Heal.nan_pixels self)) as [Hin|Hout].
    - apply elem_of_np_where in Hin as (g & Hg' & _). eauto.
    - rewrite <- (copy_pass_outside _ _ _ r c Hg Hout). eauto. }
  destruct Hbefore as [g Hget].
  destruct (F64.np_isnan g) eqn:Hnan.
  - destruct (Hdon r c g Hget Hnan) as (gd & Hgd & Hdef).
    destruct (heal_pass_label _ _ _ _ _ Hp Hget Hnan) as [_ Hfrom].
    rewrite Hfrom in Hv.
    + congruence.
    + intros (w & Hw & Hwn)%elem_of_np_where. congruence.
  - pose proof (heal_pass_defined_kept _ _ _ _ _ Hp Hget Hnan) as Hpix.
    unfold pixel in Hpix. injection Hpix as Hg1 _ _. congruence.
Qed.

(** The two diagonal pixels (0,0) and (1,1) give each other their NaN. *)
Lemma heal_pass_diagonal self self' g00 g11 :
  Heal.heal_pass self (Heal.nan_pixels self) = Some self' ->
  get2 (grains self) 0 0 = Some g00 -> F64.np_isnan g00 = true ->
  get2 (grains self) 1 1 = Some g11 -> F64.np_isnan g11 = true ->
  get2 (grains self') 0 0 = Some g11 /\ get2 (grains self') 1 1 = Some g11.
Proof.
  intros Hp H00 Hn00 H11 Hn11.
  destruct (heal_pass_label _ _ _ _ _ Hp H00 Hn00) as [Ha _].
  destruct (heal_pass_label _ _ _ _ _ Hp H11 Hn11) as [Hb _].
  rewrite decide_True in Ha by done. rewrite decide_False in Hb by done.
  change (Heal.donor 0) with 1 in Ha. change (Heal.donor 1) with 0 in Hb.
  rewrite H11 in Ha. by rewrite Hb, Ha.
Qed.

Lemma heal_loop_diagonal fuel self nr nc g00 g11 :
  healable self nr nc -> 2 <= nr -> 2 <= nc ->
  get2 (grains self) 0 0 = Some g00 -> F64.np_isnan g00 = true ->
  get2 (grains self) 1 1 = Some g11 -> F64.np_isnan g11 = true ->
  Heal.craft_heal fuel self = None.
Proof.
  unfold Heal.craft_heal. intros Hh Hnr Hnc. revert self g00 Hh.
  induction fuel as [|fuel IH]; intros self g00 Hh H00 Hn00 H11 Hn11;
    (assert (Hin : (0, 0) ∈ Heal.nan_pixels self)
       by (apply elem_of_np_where; eauto));
    destruct (heal_pass_total self nr nc Hh Hnr Hnc) as [self' Hp];
    destruct (Heal.nan_pixels self) as [|p t] eqn:Hidx;
    try (by apply elem_of_nil in Hin); [done|].
  cbn [Heal.heal_loop]. rewrite Hp.
  rewrite <- Hidx in Hp.
  destruct (heal_pass_diagonal _ _ _ _ Hp H00 Hn00 H11 Hn11) as [H00' H11'].
  eapply (IH self' g11); try done. by eapply heal_pass_healable.
Qed.

End HealEdges.

(** X3: on arrays of a single row, or of a single column, that hold a NaN
    label, the first pass of the healing loop raises IndexError: the donor
    of a pixel of row 0 is in row 1, that of column 0 in column 1. *)
Theorem craft_heal_thin_field (fuel : nat) (self : aita) (nr nc r c : nat) (g : float) :
  shape (phi self) nr nc -> shape (grains self) nr nc -> nr = 1 \/ nc = 1 ->
  get2 (grains self) r c = Some g -> F64.np_isnan g = true ->
  Heal.craft_heal (S fuel) self = Some (Raise IndexError).
Proof.
  intros Hphi Hg Hthin Hget Hnan. unfold Heal.craft_heal.
  assert (Hin : (r, c) ∈ Heal.nan_pixels self)
    by (apply elem_of_np_where; eauto).
  destruct (Heal.nan_pixels self) as [|p t] eqn:Hidx;
    [by apply elem_of_nil in Hin|].
  assert (Hp : p ∈ Heal.nan_pixels self) by (rewrite Hidx; left).
  destruct (nan_pixels_bounds self nr nc p Hg Hp) as [Hr Hc].
  cbn [Heal.heal_loop Heal.heal_pass]. unfold Heal.heal_pixel.
  by rewrite (copy_donor_thin _ nr nc p Hphi Hthin Hr Hc).
Qed.

Lemma craft_heal_thin_field_witness :
  Heal.craft_heal 1 one_row = Some (Raise IndexError).
Proof.
  apply (craft_heal_thin_field 0 one_row 1 2 0 0 nan).
  - repeat split; repeat constructor.
  - repeat split; repeat constructor.
  - by left.
  - reflexivity.
  - reflexivity.
Defined.

(** X4: when the donor of every NaN pixel has a defined label, on arrays
    of at least two rows and two columns, the healing loop returns after
    one pass, with the field that pass produces. *)
Theorem craft_heal_one_pass (self : aita) (nr nc : nat) :
  healable self nr nc -> 2 <= nr -> 2 <= nc -> donors_defined self ->
  exists self',
    Heal.heal_pass self (Heal.nan_pixels self) = Some self'
    /\ forall fuel, Heal.craft_heal (S fuel) self = Some (Ok self').
Proof.
  intros Hh Hnr Hnc Hdon.
  destruct (heal_pass_total self nr nc Hh Hnr Hnc) as [self' Hp].
  exists self'. split; [done|]. intros fuel. unfold Heal.craft_heal.
  pose proof (heal_pass_no_nan _ _ Hp Hdon) as Hnil.
  destruct (Heal.nan_pixels self) as [|p t] eqn:Hidx.
  - simpl in Hp. by injection Hp as <-.
  - cbn [Heal.heal_loop]. rewrite Hp, Hnil. by destruct fuel.
Qed.

Lemma craft_heal_one_pass_witness :
  exists self',
    Heal.heal_pass one_hole (Heal.nan_pixels one_hole) = Some self'
    /\ forall fuel, Heal.craft_heal (S fuel) one_hole = Some (Ok self').
Proof.
  apply (craft_heal_one_pass one_hole 4 4).
  - repeat split; repeat constructor.
  - lia.
  - lia.
  - intros r c g Hget Hnan.
    destruct r as [|[|[|[|r]]]]; destruct c as [|[|[|[|c]]]]; try done;
      injection Hget as <-; try discriminate.
    exists 1%float. by split.
Defined.

(** X5: the loop is also trapped by two NaN labels on the diagonal: when
    the labels of pixels (0,0) and (1,1) are NaN, on arrays of at least two
    rows and two columns, each of the two pixels takes the NaN of the other
    in every pass and the loop has not returned after any number of
    passes, whatever the other labels are. *)
Theorem craft_heal_diagonal_trap (fuel : nat) (self : aita) (nr nc : nat)
  (g00 g11 : float) :
  healable self nr nc -> 2 <= nr -> 2 <= nc ->
  get2 (grains self) 0 0 = Some g00 -> F64.np_isnan g00 = true ->
  get2 (grains self) 1 1 = Some g11 -> F64.np_isnan g11 = true ->
  Heal.craft_heal fuel self = None.
Proof. intros. by eapply heal_loop_diagonal. Qed.

Lemma craft_heal_diagonal_trap_witness :
  Heal.craft_heal 1000 diagonal_holes = None.
Proof.
  apply (craft_heal_diagonal_trap 1000 diagonal_holes 2 2 nan nan);
    first [lia | reflexivity | repeat split; repeat constructor].
Defined.

(** ** Grain averaging and filtering *)

Section MeanMore.

Lemma nanmax_fold_nan (l : list float) :
  Forall (fun x => is_nan x = true) l ->
  fold_left (fun acc x => if is_nan x then acc
                          else if is_nan acc then x
                          else if (acc <? x)%float then x else acc) l nan = nan.
Proof.
  induction 1 as [|x l Hx Hl IH]; simpl; [done|]. by rewrite Hx.
Qed.

Lemma nb_grain_all_undefined self :
  all_undefined self -> Aita.nb_grain self = None.
Proof.
  intros Hall. unfold Aita.nb_grain, np_nanmax.
  destruct (concat (grains self)) as [|x l] eqn:Hc; [done|].
  rewrite nanmax_fold_nan; [done|]. rewrite <- Hc.
  apply Forall_forall. intros v Hv.
  destruct (concat_values _ _ Hv) as (r & c & Hget). by eapply Hall.
Qed.

(** What [mean_grain] returns on arrays of one shape, for fewer than
    2^53 grains. *)
Lemma mean_grain_spec self nr nc nb :
  shape (phi self) nr nc -> shape (phi1 self) nr nc -> shape (grains self) nr nc ->
  Aita.nb_grain self = Some nb -> (nb < 2 ^ 53)%Z ->
  exists self',
    Aita.mean_grain self = Ok self'
    /\ (qua self' = qua self /\ micro self' = micro self
        /\ grains self' = grains self /\ res self' = res self)
    /\ (shape (phi self') nr nc /\ shape (phi1 self') nr nc)
    /\ (forall (i : nat) r c g,
          (Z.of_nat i <= nb)%Z ->
          get2 (grains self) r c = Some g ->
          (g =? F64.of_Z (Z.of_nat i))%float = true ->
          exists vs vs1,
            take_at (phi self) (Aita.grain_pixels self i) = Some vs
            /\ take_at (phi1 self) (Aita.grain_pixels self i) = Some vs1
            /\ get2 (phi self') r c = Some (np_nanmean vs)
            /\ get2 (phi1 self') r c = Some (np_nanmean vs1)).
Proof.
  intros Hphi Hphi1 Hg Hnb Hdist%labels_distinct_small.
  set (l := seq 0 (Z.to_nat (nb + 1))).
  destruct (mean_grain_loop_total self l nr nc Hphi Hphi1 Hg) as [self' Hloop].
  exists self'. split.
  { unfold Aita.mean_grain. rewrite Hnb. fold l. by rewrite Hloop. }
  destruct (mean_grain_loop_arrays _ _ _ Hloop) as (Ha & Hb & Hq & Hm & Hgr & Hr).
  split; [done|].
  assert (Hshape : forall a a', shape a nr nc ->
            mean_loop_array (grains self) a l = Some a' -> shape a' nr nc).
  { intros a a'. revert a. generalize l. intros l0. induction l0 as [|i t IH]; intros a Hsa; simpl.
    - by intros [= <-].
    - destruct (mean_step_array (grains self) a i) as [a1|] eqn:Hs; [|done].
      apply IH. by eapply mean_step_array_shape. }
  split; [split; [exact (Hshape _ _ Hphi Ha) | exact (Hshape _ _ Hphi1 Hb)]|].
  assert (Hl : forall i, i ∈ l <-> (Z.of_nat i <= nb)%Z).
  { intros i. unfold l. rewrite elem_of_seq. lia. }
  assert (Hdisj : forall i j r c, i ∈ l -> j ∈ l ->
            (r, c) ∈ label_pixels (grains self) i ->
            (r, c) ∈ label_pixels (grains self) j -> i = j).
  { intros i j r c Hi%Hl Hj%Hl. by eapply label_pixels_disjoint. }
  destruct (mean_loop_array_spec _ _ _ _ (NoDup_seq 0 _) Hdisj Ha) as [Ha1 _].
  destruct (mean_loop_array_spec _ _ _ _ (NoDup_seq 0 _) Hdisj Hb) as [Hb1 _].
  intros i r c g Hi Hget Heq.
  assert (Hin : (r, c) ∈ label_pixels (grains self) i)
    by (apply elem_of_np_where; eauto).
  destruct (Ha1 i r c (proj2 (Hl i) Hi) Hin) as (vs & Hvs & Hget1).
  destruct (Hb1 i r c (proj2 (Hl i) Hi) Hin) as (vs1 & Hvs1 & Hget2).
  by exists vs, vs1.
Qed.

End MeanMore.

(** X6: [mean_grain] raises ValueError when no grain label is defined:
    [np.nanmax] of labels that are all NaN is NaN, which [int] refuses,
    and [np.nanmax] itself refuses an array without pixel. *)
Theorem mean_grain_all_undefined (self : aita) :
  all_undefined self -> Aita.mean_grain self = Raise ValueError.
Proof.
  intros Hall. unfold Aita.mean_grain. by rewrite nb_grain_all_undefined.
Qed.

Lemma mean_grain_all_undefined_witness :
  Aita.mean_grain all_nan22 = Raise ValueError.
Proof. apply (mean_grain_all_undefined all_nan22), all_nan22_undefined. Defined.

(** X7: after [mean_grain], on arrays of one shape and for fewer than 2^53
    grains, two pixels of one grain hold the same phi and the same phi1;
    the quality field, the mask, the labels and the resolution are
    unchanged and phi and phi1 keep their shape. *)
Theorem mean_grain_one_orientation_per_grain (self : aita) (nr nc : nat) (nb : Z) :
  shape (phi self) nr nc -> shape (phi1 self) nr nc -> shape (grains self) nr nc ->
  Aita.nb_grain self = Some nb -> (nb < 2 ^ 53)%Z ->
  exists self',
    Aita.mean_grain self = Ok self'
    /\ (qua self' = qua self /\ micro self' = micro self
        /\ grains self' = grains self /\ res self' = res self)
    /\ (shape (phi self') nr nc /\ shape (phi1 self') nr nc)
    /\ (forall (i : nat) r c g r' c' g',
          (Z.of_nat i <= nb)%Z ->
          get2 (grains self) r c = Some g ->
          (g =? F64.of_Z (Z.of_nat i))%float = true ->
          get2 (grains self) r' c' = Some g' ->
          (g' =? F64.of_Z (Z.of_nat i))%float = true ->
          get2 (phi self') r c = get2 (phi self') r' c'
          /\ get2 (phi1 self') r c = get2 (phi1 self') r' c').
Proof.
  intros Hphi Hphi1 Hg Hnb Hsmall.
  destruct (mean_grain_spec self nr nc nb Hphi Hphi1 Hg Hnb Hsmall)
    as (self' & Hm & Hframe & Hshape & Hmean).
  exists self'. split; [done|]. split; [done|]. split; [done|].
  intros i r c g r' c' g' Hi Hget Heq Hget' Heq'.
  destruct (Hmean i r c g Hi Hget Heq) as (vs & vs1 & Hvs & Hvs1 & H1 & H2).
  destruct (Hmean i r' c' g' Hi Hget' Heq') as (ws & ws1 & Hws & Hws1 & H1' & H2').
  split; congruence.
Qed.

Lemma mean_grain_one_orientation_per_grain_witness :
  exists self',
    Aita.mean_grain two_grains = Ok self'
    /\ get2 (phi self') 0 0 = get2 (phi self') 0 1
    /\ get2 (phi1 self') 0 0 = get2 (phi1 self') 0 1.
Proof.
  destruct (mean_grain_one_orientation_per_grain two_grains 2 2 1)
    as (self' & Hm & _ & _ & Hsame).
  - repeat split; repeat constructor.
  - repeat split; repeat constructor.
  - repeat split; repeat constructor.
  - reflexivity.
  - reflexivity.
  - exists self'. split; [exact Hm|].
    exact (Hsame 0 0 0 0%float 0 1 0%float ltac:(lia) eq_refl eq_refl eq_refl eq_refl).
Defined.

Section FilterMore.

Lemma set2_same (a : array2) r c v : get2 a r c = Some v -> set2 a r c v = Some a.
Proof.
  unfold get2, set2. destruct (a !! r) as [row|] eqn:Hr; [|done].
  intros Hc. rewrite decide_True by by eapply lookup_lt_Some.
  by rewrite (list_insert_id row c v Hc), (list_insert_id a r row Hr).
Qed.

Lemma assign_same (a : array2) idx v :
  (forall r c, (r, c) ∈ idx -> get2 a r c = Some v) -> assign a idx v = Some a.
Proof.
  induction idx as [|[r c] t IH]; intros Hall; simpl; [done|].
  rewrite set2_same by (apply Hall; left). apply IH.
  intros r' c' ?. apply Hall. by right.
Qed.

Lemma ltb_nan_r (q : float) : (q <? nan)%float = false.
Proof. rewrite ltb_spec. unfold SFltb. by destruct (Prim2SF q). Qed.

(** Two arrays of one shape with the same entries are equal. *)
Lemma array2_eq (a b : array2) nr nc :
  shape a nr nc -> shape b nr nc ->
  (forall r c, get2 a r c = get2 b r c) -> a = b.
Proof.
  intros [Hna Hra] [Hnb Hrb] Hget. apply list_eq. intros r.
  destruct (a !! r) as [ra|] eqn:Har.
  - destruct (lookup_lt_is_Some_2 b r) as [rb Hbr].
    { rewrite Hnb, <- Hna. by eapply lookup_lt_Some. }
    rewrite Hbr. f_equal. apply list_eq. intros c.
    specialize (Hget r c). unfold get2 in Hget. by rewrite Har, Hbr in Hget.
  - symmetry. apply lookup_ge_None_2. rewrite Hnb, <- Hna.
    by apply lookup_ge_None_1.
Qed.

Lemma aita_eq (s t : aita) :
  phi1 s = phi1 t -> phi s = phi t -> qua s = qua t -> micro s = micro t ->
  grains s = grains t -> res s = res t -> s = t.
Proof. destruct s, t; simpl. by intros -> -> -> -> -> ->. Qed.

Lemma filter_shape self value self' nr nc :
  Aita.filter self value = Ok self' ->
  shape (phi self) nr nc -> shape (phi1 self) nr nc ->
  shape (phi self') nr nc /\ shape (phi1 self') nr nc.
Proof.
  intros (Hphi & Hphi1 & _)%filter_Ok ? ?. split; by eapply assign_shape.
Qed.

Lemma filter_outside self value self' nr nc r c :
  Aita.filter self value = Ok self' ->
  shape (phi self) nr nc -> shape (phi1 self) nr nc -> shape (qua self) nr nc ->
  get2 (qua self) r c = None ->
  get2 (phi self') r c = None /\ get2 (phi1 self') r c = None.
Proof.
  intros Hf Hphi Hphi1 Hqua Hnone.
  destruct (filter_shape _ _ _ _ _ Hf Hphi Hphi1) as [Hs Hs1].
  assert (Hno : forall a, shape a nr nc -> get2 a r c = None).
  { intros a Ha. destruct (get2 a r c) as [v|] eqn:Hv; [|done].
    destruct (same_shape_get2 a (qua self) nr nc r c Ha Hqua) as [q Hq]; [eauto|].
    congruence. }
  split; by apply Hno.
Qed.

Lemma filter_identity self value :
  (forall r c q, get2 (qua self) r c = Some q -> (q <? value)%float = false) ->
  Aita.filter self value = Ok self.
Proof.
  intros Hall. unfold Aita.filter. rewrite (np_where_nil _ _ Hall). simpl.
  by destruct self.
Qed.

End FilterMore.

(** X8: [filter] is idempotent: filtering the result again with the same
    threshold returns it unchanged. *)
Theorem filter_idempotent (self self' : aita) (value : float) :
  Aita.filter self value = Ok self' -> Aita.filter self' value = Ok self'.
Proof.
  intros Hf. destruct (filter_Ok _ _ _ Hf) as (Hphi & Hphi1 & Hq & _).
  unfold Aita.filter. rewrite Hq.
  rewrite (assign_same (phi self')), (assign_same (phi1 self')).
  - rewrite <- Hq. by destruct self'.
  - intros r c Hin. by eapply assign_get2_in.
  - intros r c Hin. by eapply assign_get2_in.
Qed.

Lemma filter_idempotent_witness :
  exists s, Aita.filter two_grains 75 = Ok s /\ Aita.filter s 75 = Ok s.
Proof.
  eexists. split; [reflexivity|].
  apply (filter_idempotent two_grains _ 75). reflexivity.
Defined.

(** X9: a threshold that no quality value is below changes nothing:
    [filter] then returns the object it was given, whatever the shapes. *)
Theorem filter_nothing_below (self : aita) (value : float) :
  (forall r c q, get2 (qua self) r c = Some q -> (q <? value)%float = false) ->
  Aita.filter self value = Ok self.
Proof. apply filter_identity. Qed.

Lemma filter_nothing_below_witness : Aita.filter two_grains 10 = Ok two_grains.
Proof.
  apply (filter_nothing_below two_grains 10). intros r c q.
  destruct r as [|[|r]]; destruct c as [|[|c]]; try done; by intros [= <-].
Defined.

(** X10: a NaN threshold filters nothing, since no quality compares below
    NaN: [filter(nan)] returns the object unchanged. *)
Theorem filter_nan_threshold (self : aita) : Aita.filter self nan = Ok self.
Proof. apply filter_identity. intros r c q _. apply ltb_nan_r. Qed.

(** X11: two filters commute: on arrays of one shape, filtering with
    [v1] then [v2] and filtering with [v2] then [v1] succeed and return the
    same object. *)
Theorem filter_commutes (self : aita) (v1 v2 : float) (nr nc : nat) :
  shape (phi self) nr nc -> shape (phi1 self) nr nc -> shape (qua self) nr nc ->
  exists s1 s2 s,
    Aita.filter self v1 = Ok s1 /\ Aita.filter self v2 = Ok s2
    /\ Aita.filter s1 v2 = Ok s /\ Aita.filter s2 v1 = Ok s.
Proof.
  intros Hphi Hphi1 Hqua.
  destruct (filter_total self v1 nr nc Hphi Hphi1 Hqua) as [s1 H1].
  destruct (filter_total self v2 nr nc Hphi Hphi1 Hqua) as [s2 H2].
  destruct (filter_shape _ _ _ _ _ H1 Hphi Hphi1) as [Hs1 Hs1'].
  destruct (filter_shape _ _ _ _ _ H2 Hphi Hphi1) as [Hs2 Hs2'].
  destruct (filter_Ok _ _ _ H1) as (_ & _ & Hq1 & Hm1 & Hg1 & Hr1).
  destruct (filter_Ok _ _ _ H2) as (_ & _ & Hq2 & Hm2 & Hg2 & Hr2).
  destruct (filter_total s1 v2 nr nc Hs1 Hs1' ltac:(by rewrite Hq1)) as [s12 H12].
  destruct (filter_total s2 v1 nr nc Hs2 Hs2' ltac:(by rewrite Hq2)) as [s21 H21].
  destruct (filter_shape _ _ _ _ _ H12 Hs1 Hs1') as [Hs12 Hs12'].
  destruct (filter_shape _ _ _ _ _ H21 Hs2 Hs2') as [Hs21 Hs21'].
  destruct (filter_Ok _ _ _ H12) as (_ & _ & Hq12 & Hm12 & Hg12 & Hr12).
  destruct (filter_Ok _ _ _ H21) as (_ & _ & Hq21 & Hm21 & Hg21 & Hr21).
  exists s1, s2, s12. split_and!; try done.
  rewrite H21. f_equal.
  assert (Hpix : forall r c,
            get2 (phi s21) r c = get2 (phi s12) r c
            /\ get2 (phi1 s21) r c = get2 (phi1 s12) r c).
  { intros r c. destruct (get2 (qua self) r c) as [q|] eqn:Hq.
    - pose proof (filter_pixel _ _ _ r c q H1 Hq) as P1.
      pose proof (filter_pixel _ _ _ r c q H2 Hq) as P2.
      pose proof (filter_pixel _ _ _ r c q H12 ltac:(by rewrite Hq1)) as P12.
      pose proof (filter_pixel _ _ _ r c q H21 ltac:(by rewrite Hq2)) as P21.
      destruct (q <? v1)%float, (q <? v2)%float;
        destruct P1, P2, P12, P21; split; congruence.
    - assert (Hq1' : get2 (qua s1) r c = None) by by rewrite Hq1.
      assert (Hq2' : get2 (qua s2) r c = None) by by rewrite Hq2.
      destruct (filter_outside _ _ _ nr nc r c H12 Hs1 Hs1'
                  ltac:(by rewrite Hq1) Hq1') as [-> ->].
      destruct (filter_outside _ _ _ nr nc r c H21 Hs2 Hs2'
                  ltac:(by rewrite Hq2) Hq2') as [-> ->].
      done. }
  apply aita_eq; try congruence.
  - apply (array2_eq _ _ nr nc Hs21' Hs12'). intros r c. apply Hpix.
  - apply (array2_eq _ _ nr nc Hs21 Hs12). intros r c. apply Hpix.
Qed.

Lemma filter_commutes_witness :
  exists s1 s2 s,
    Aita.filter two_grains 75 = Ok s1 /\ Aita.filter two_grains 85 = Ok s2
    /\ Aita.filter s1 85 = Ok s /\ Aita.filter s2 75 = Ok s.
Proof.
  apply (filter_commutes two_grains 75 85 2 2); repeat split; repeat constructor.
Defined.

(** ** Mirror and half turn *)

Section FlipMore.

Lemma get2_map (f : float -> float) (a : array2) r c :
  get2 (map (map f) a) r c = f <$> get2 a r c.
Proof.
  unfold get2. change (map (map f) a) with (map f <$> a).
  rewrite list_lookup_fmap. destruct (a !! r) as [row|]; simpl; [|done].
  change (map f row) with (f <$> row). by rewrite list_lookup_fmap.
Qed.

Lemma map_shape (f : float -> float) (a : array2) nr nc :
  shape a nr nc -> shape (map (map f) a) nr nc.
Proof.
  intros [Hn Hrows]. split; [by rewrite length_map|].
  apply Forall_map. eapply Forall_impl; [done|].
  intros row Hrow. simpl. by rewrite length_map.
Qed.

Lemma np_fliplr_twice (a : array2) : np_fliplr (np_fliplr a) = a.
Proof.
  unfold np_fliplr. induction a as [|row a IH]; simpl; [done|].
  by rewrite reverse_involutive, IH.
Qed.

Lemma np_rot_twice (a : array2) :
  np_flipud (np_fliplr (np_flipud (np_fliplr a))) = a.
Proof.
  unfold np_flipud, np_fliplr.
  rewrite (map_flipud reverse (map reverse a)), reverse_involutive.
  apply np_fliplr_twice.
Qed.

Lemma fliplr_shape self nr nc :
  aita_shape self nr nc -> aita_shape (Aita.fliplr self) nr nc.
Proof.
  intros (H1 & H2 & H3 & H4 & H5). unfold aita_shape; simpl.
  split_and!; try by apply np_fliplr_shape.
  by apply map_shape, np_fliplr_shape.
Qed.

Lemma rot180_shape self nr nc :
  aita_shape self nr nc -> aita_shape (Aita.rot180 self) nr nc.
Proof.
  intros (H1 & H2 & H3 & H4 & H5). unfold aita_shape; simpl.
  split_and!; try by apply np_flipud_shape, np_fliplr_shape.
  by apply map_shape, np_flipud_shape, np_fliplr_shape.
Qed.

Lemma get2_rot (a : array2) nr nc r c :
  shape a nr nc -> r < nr -> c < nc ->
  get2 (np_flipud (np_fliplr a)) r c = get2 a (nr - S r) (nc - S c).
Proof.
  intros Ha Hr Hc.
  rewrite (get2_np_flipud _ nr nc) by (by apply np_fliplr_shape || done).
  by rewrite (get2_np_fliplr _ nr nc).
Qed.

Lemma fliplr_phi1_at self nr nc r c :
  shape (phi1 self) nr nc -> c < nc ->
  get2 (phi1 (Aita.fliplr self)) r c
  = Aita.flip_phi1 <$> get2 (phi1 self) r (nc - S c).
Proof.
  intros H1 Hc. simpl. by rewrite get2_map, (get2_np_fliplr _ nr nc).
Qed.

Lemma rot180_phi1_at self nr nc r c :
  shape (phi1 self) nr nc -> r < nr -> c < nc ->
  get2 (phi1 (Aita.rot180 self)) r c
  = Aita.rot_phi1 <$> get2 (phi1 self) (nr - S r) (nc - S c).
Proof.
  intros H1 Hr Hc. simpl. by rewrite get2_map, (get2_rot _ nr nc).
Qed.

End FlipMore.

(** X12: [fliplr] on arrays of [nr] rows and [nc] columns keeps the shapes
    and puts at pixel (r, c) what pixel (r, nc-1-c) held: phi, the quality,
    the mask and the label as they were, and phi1 changed into
    (pi - phi1) mod 2 pi. *)
Theorem fliplr_pixels (self : aita) (nr nc r c : nat) :
  aita_shape self nr nc -> c < nc ->
  aita_shape (Aita.fliplr self) nr nc
  /\ get2 (phi (Aita.fliplr self)) r c = get2 (phi self) r (nc - S c)
  /\ get2 (qua (Aita.fliplr self)) r c = get2 (qua self) r (nc - S c)
  /\ get2 (micro (Aita.fliplr self)) r c = get2 (micro self) r (nc - S c)
  /\ get2 (grains (Aita.fliplr self)) r c = get2 (grains self) r (nc - S c)
  /\ get2 (phi1 (Aita.fliplr self)) r c
     = Aita.flip_phi1 <$> get2 (phi1 self) r (nc - S c).
Proof.
  intros Hs Hc. split; [by apply fliplr_shape|].
  destruct Hs as (H1 & H2 & H3 & H4 & H5). simpl.
  split_and!; try by apply (get2_np_fliplr _ nr nc).
  by apply (fliplr_phi1_at self nr nc).
Qed.

Lemma fliplr_pixels_witness :
  get2 (phi (Aita.fliplr two_grains)) 0 0 = Some 0.75%float
  /\ get2 (grains (Aita.fliplr two_grains)) 1 1 = Some nan.
Proof.
  destruct (fliplr_pixels two_grains 2 2 0 0) as (_ & H1 & _).
  { repeat split; repeat constructor. }
  { lia. }
  destruct (fliplr_pixels two_grains 2 2 1 1) as (_ & _ & _ & _ & H2 & _).
  { repeat split; repeat constructor. }
  { lia. }
  split; [exact H1 | exact H2].
Defined.

(** X13: [rot180] on arrays of [nr] rows and [nc] columns keeps the shapes
    and puts at pixel (r, c) what pixel (nr-1-r, nc-1-c) held, with phi1
    changed into (pi + phi1) mod 2 pi. *)
Theorem rot180_pixels (self : aita) (nr nc r c : nat) :
  aita_shape self nr nc -> r < nr -> c < nc ->
  aita_shape (Aita.rot180 self) nr nc
  /\ get2 (phi (Aita.rot180 self)) r c = get2 (phi self) (nr - S r) (nc - S c)
  /\ get2 (qua (Aita.rot180 self)) r c = get2 (qua self) (nr - S r) (nc - S c)
  /\ get2 (micro (Aita.rot180 self)) r c = get2 (micro self) (nr - S r) (nc - S c)
  /\ get2 (grains (Aita.rot180 self)) r c = get2 (grains self) (nr - S r) (nc - S c)
  /\ get2 (phi1 (Aita.rot180 self)) r c
     = Aita.rot_phi1 <$> get2 (phi1 self) (nr - S r) (nc - S c).
Proof.
  intros Hs Hr Hc. split; [by apply rot180_shape|].
  destruct Hs as (H1 & H2 & H3 & H4 & H5). simpl.
  split_and!; try by apply (get2_rot _ nr nc).
  by apply (rot180_phi1_at self nr nc).
Qed.

Lemma rot180_pixels_witness :
  get2 (phi (Aita.rot180 two_grains)) 0 0 = Some 1%float
  /\ get2 (grains (Aita.rot180 two_grains)) 0 1 = Some nan.
Proof.
  destruct (rot180_pixels two_grains 2 2 0 0) as (_ & H1 & _).
  { repeat split; repeat constructor. }
  { lia. }
  { lia. }
  destruct (rot180_pixels two_grains 2 2 0 1) as (_ & _ & _ & _ & H2 & _).
  { repeat split; repeat constructor. }
  { lia. }
  { lia. }
  split; [exact H1 | exact H2].
Defined.

(** X14: applied twice, [fliplr] and [rot180] each give back phi, the
    quality field, the mask, the labels and the resolution exactly, for
    arrays of any shape (phi1 alone goes through the angle map). *)
Theorem flips_twice_restore_positions (self : aita) :
  (phi (Aita.fliplr (Aita.fliplr self)) = phi self
   /\ qua (Aita.fliplr (Aita.fliplr self)) = qua self
   /\ micro (Aita.fliplr (Aita.fliplr self)) = micro self
   /\ grains (Aita.fliplr (Aita.fliplr self)) = grains self
   /\ res (Aita.fliplr (Aita.fliplr self)) = res self)
  /\ (phi (Aita.rot180 (Aita.rot180 self)) = phi self
      /\ qua (Aita.rot180 (Aita.rot180 self)) = qua self
      /\ micro (Aita.rot180 (Aita.rot180 self)) = micro self
      /\ grains (Aita.rot180 (Aita.rot180 self)) = grains self
      /\ res (Aita.rot180 (Aita.rot180 self)) = res self).
Proof.
  simpl. split; split_and!; try done;
    first [apply np_fliplr_twice | apply np_rot_twice].
Qed.

(** X15: a pixel without phi1 stays without phi1: where phi1 was NaN,
    [fliplr] and [rot180] leave NaN at the pixel's new place. *)
Theorem flips_keep_undefined (self : aita) (nr nc r c : nat) (x : float) :
  shape (phi1 self) nr nc -> r < nr -> c < nc ->
  get2 (phi1 self) r c = Some x -> is_nan x = true ->
  get2 (phi1 (Aita.fliplr self)) r (nc - S c) = Some nan
  /\ get2 (phi1 (Aita.rot180 self)) (nr - S r) (nc - S c) = Some nan.
Proof.
  intros H1 Hr Hc Hx ->%is_nan_eq. split.
  - rewrite (fliplr_phi1_at self nr nc) by (done || lia).
    replace (nc - S (nc - S c)) with c by lia. by rewrite Hx.
  - rewrite (rot180_phi1_at self nr nc) by (done || lia).
    replace (nc - S (nc - S c)) with c by lia.
    replace (nr - S (nr - S r)) with r by lia. by rewrite Hx.
Qed.

Lemma flips_keep_undefined_witness :
  get2 (phi1 (Aita.fliplr two_grains)) 1 1 = Some nan
  /\ get2 (phi1 (Aita.rot180 two_grains)) 0 1 = Some nan.
Proof.
  apply (flips_keep_undefined two_grains 2 2 1 0 nan);
    first [lia | reflexivity | repeat split; repeat constructor].
Defined.

(** ** The misorientation profile *)

Section ProfileMore.

Lemma SFmul_comm (a b : spec_float) : SF64mul a b = SF64mul b a.
Proof.
  unfold SF64mul.
  destruct a as [s|s| |s m e], b as [t|t| |t n f]; simpl;
    rewrite ?(xorb_comm s t); try done.
  by rewrite (Pos.mul_comm m n), (Z.add_comm e f).
Qed.

Lemma float_mul_comm (x y : float) : (x * y)%float = (y * x)%float.
Proof. apply Prim2SF_inj. rewrite !mul_spec. apply SFmul_comm. Qed.

Lemma dot_fold_comm (v w : list float) (acc : float) :
  fold_left (fun s p => (s + p.1 * p.2)%float) (zip v w) acc
  = fold_left (fun s p => (s + p.1 * p.2)%float) (zip w v) acc.
Proof.
  revert w acc. induction v as [|x v IH]; intros [|y w] acc; simpl; try done.
  by rewrite IH, (float_mul_comm x y).
Qed.




End ProfileMore.


(** X17: the misorientation of two c-axes is the same in both orders, for
    all vectors of binary64 values: the misorientation to the previous
    pixel is also that from the previous pixel. *)
Theorem misorientation_symmetric (np_arccos : float -> float) (v w : list float) :
  Profile.misorientation np_arccos v w = Profile.misorientation np_arccos w v.
Proof.
  unfold Profile.misorientation, Profile.dot. by rewrite dot_fold_comm.
Qed.

(** ** The orientation tensor over absent grains *)

(** X18: [plotpdf] over a non-empty list of grain labels that no pixel
    carries collects no sample and raises LinAlgError: the mean of no
    value is NaN and the eigen-solver refuses the tensor. *)
Theorem plotpdf_absent_grains (libm_cos libm_sin : float -> float)
  (geev : list (list float) -> list float) (self : aita) (label : list float) :
  label <> [] ->
  (forall l r c g, l ∈ label -> get2 (grains self) r c = Some g ->
                   (g =? l)%float = false) ->
  Plotpdf.samples self (Some label) = Ok []
  /\ Plotpdf.plotpdf libm_cos libm_sin geev self (Some label) = Raise LinAlgError.
Proof.
  intros Hne Habs.
  assert (Hs : Plotpdf.samples_of self label = Some []).
  { clear Hne. induction label as [|l t IH]; simpl; [done|].
    rewrite (np_where_nil (fun g => (g =? l)%float) (grains self)).
    - simpl. rewrite IH; [done|]. intros l' r c g Hl'. apply Habs. by right.
    - intros r c g. apply Habs. by left. }
  assert (Hsamples : Plotpdf.samples self (Some label) = Ok []).
  { simpl. unfold Plotpdf.samples_grains. destruct label as [|l t]; [done|].
    by rewrite Hs. }
  split; [done|]. unfold Plotpdf.plotpdf. rewrite Hsamples.
  apply plotpdf_nan_tensor. constructor.
Qed.

Lemma plotpdf_absent_grains_witness :
  Plotpdf.samples two_grains (Some [7%float]) = Ok []
  /\ Plotpdf.plotpdf (fun x => x) (fun x => x) (fun _ => []) two_grains
       (Some [7%float]) = Raise LinAlgError.
Proof.
  apply (plotpdf_absent_grains _ _ _ two_grains [7%float]).
  - discriminate.
  - intros l r c g ->%list_elem_of_singleton.
    destruct r as [|[|r]]; destruct c as [|[|c]]; try done; by intros [= <-].
Defined.

(** ** Construction and crop *)

Section CropMore.

Lemma py_slice_in_range {A} (l : list A) (lo hi : Z) :
  (0 <= lo <= hi)%Z -> (hi <= Z.of_nat (length l))%Z ->
  py_slice l lo hi = take (Z.to_nat (hi - lo)) (drop (Z.to_nat lo) l).
Proof.
  intros Hlo Hhi. unfold py_slice.
  destruct (Z.ltb_spec hi 0), (Z.ltb_spec lo 0); try lia.
  by rewrite !Z.min_l by lia.
Qed.

Lemma py_slice_lookup {A} (l : list A) (lo hi : Z) (i : nat) :
  (0 <= lo <= hi)%Z -> (hi <= Z.of_nat (length l))%Z ->
  i < Z.to_nat (hi - lo) ->
  py_slice l lo hi !! i = l !! (Z.to_nat lo + i).
Proof.
  intros Hlo Hhi Hi. rewrite py_slice_in_range by done.
  by rewrite lookup_take_lt, lookup_drop.
Qed.

Lemma py_slice_in_range_length {A} (l : list A) (lo hi : Z) :
  (0 <= lo <= hi)%Z -> (hi <= Z.of_nat (length l))%Z ->
  length (py_slice l lo hi) = Z.to_nat (hi - lo).
Proof.
  intros Hlo Hhi. rewrite py_slice_in_range by done.
  rewrite length_take, length_drop. lia.
Qed.

Lemma slice2_in_range (a : array2) nr nc ymin ymax xmin xmax :
  shape a nr nc ->
  (0 <= ymin <= ymax)%Z -> (ymax <= Z.of_nat nr)%Z ->
  (0 <= xmin <= xmax)%Z -> (xmax <= Z.of_nat nc)%Z ->
  shape (slice2 a ymin ymax xmin xmax) (Z.to_nat (ymax - ymin)) (Z.to_nat (xmax - xmin))
  /\ forall r c, r < Z.to_nat (ymax - ymin) -> c < Z.to_nat (xmax - xmin) ->
       get2 (slice2 a ymin ymax xmin xmax) r c
       = get2 a (Z.to_nat ymin + r) (Z.to_nat xmin + c).
Proof.
  intros [Hn Hrows] Hy Hy' Hx Hx'. unfold slice2. split; [split|].
  - rewrite length_map. apply py_slice_in_range_length; [done|]. by rewrite Hn.
  - apply Forall_map.
    assert (Hsub : Forall (fun row : list float => length row = nc)
                     (py_slice a ymin ymax)).
    { unfold py_slice. by apply Forall_take, Forall_drop. }
    eapply Forall_impl; [exact Hsub|]. intros row Hrow. simpl.
    apply py_slice_in_range_length; [done|]. by rewrite Hrow.
  - intros r c Hr Hc. unfold get2.
    change (map (fun row => py_slice row xmin xmax) (py_slice a ymin ymax))
      with ((fun row => py_slice row xmin xmax) <$> py_slice a ymin ymax).
    rewrite list_lookup_fmap, py_slice_lookup by (done || by rewrite Hn).
    destruct (a !! (Z.to_nat ymin + r)) as [row|] eqn:Hrow; simpl; [|done].
    rewrite Forall_lookup in Hrows. specialize (Hrows _ _ Hrow).
    apply py_slice_lookup; [done| |done]. by rewrite Hrows.
Qed.

End CropMore.

(** X19: [crop] with bounds inside the map, 0 <= ymin <= ymax <= nr and
    0 <= xmin <= xmax <= nc, returns arrays of ymax-ymin rows and xmax-xmin
    columns in which pixel (r, c) holds phi, phi1, the quality and the
    mask of pixel (ymin+r, xmin+c); the resolution is kept (the labelling
    is assumed to return a field of the shape of the mask). *)
Theorem crop_pixels (grain_label : array2 -> float -> array2) (self : aita)
  (nr nc : nat) (ymin ymax xmin xmax : Z) :
  keeps_shape grain_label -> aita_shape self nr nc ->
  (0 <= ymin <= ymax)%Z -> (ymax <= Z.of_nat nr)%Z ->
  (0 <= xmin <= xmax)%Z -> (xmax <= Z.of_nat nc)%Z ->
  exists self',
    Aita.crop grain_label self ymin ymax xmin xmax = Ok self'
    /\ aita_shape self' (Z.to_nat (ymax - ymin)) (Z.to_nat (xmax - xmin))
    /\ res self' = res self
    /\ forall r c, r < Z.to_nat (ymax - ymin) -> c < Z.to_nat (xmax - xmin) ->
         get2 (phi self') r c = get2 (phi self) (Z.to_nat ymin + r) (Z.to_nat xmin + c)
         /\ get2 (phi1 self') r c
            = get2 (phi1 self) (Z.to_nat ymin + r) (Z.to_nat xmin + c)
         /\ get2 (qua self') r c
            = get2 (qua self) (Z.to_nat ymin + r) (Z.to_nat xmin + c)
         /\ get2 (micro self') r c
            = get2 (micro self) (Z.to_nat ymin + r) (Z.to_nat xmin + c).
Proof.
  intros Hlabel (H1 & H2 & H3 & H4 & H5) Hy Hy' Hx Hx'.
  destruct (slice2_in_range _ _ _ _ _ _ _ H1 Hy Hy' Hx Hx') as [S1 G1].
  destruct (slice2_in_range _ _ _ _ _ _ _ H2 Hy Hy' Hx Hx') as [S2 G2].
  destruct (slice2_in_range _ _ _ _ _ _ _ H3 Hy Hy' Hx Hx') as [S3 G3].
  destruct (slice2_in_range _ _ _ _ _ _ _ H4 Hy Hy' Hx Hx') as [S4 G4].
  unfold Aita.crop.
  pose proof (Hlabel _ (res self) _ _ S4) as Hl.
  destruct (mask_boundary_total _ _ _ _ S4 Hl) as [g Hg]. rewrite Hg.
  destruct (mask_boundary_spec _ _ _ _ _ S4 Hl Hg) as [Sg _].
  eexists. split; [done|]. simpl. split; [by split_and!|]. split; [done|].
  intros r c Hr Hc. split_and!; auto.
Qed.

Lemma crop_pixels_witness :
  exists self',
    Aita.crop one_grain one_hole 1 3 0 2 = Ok self'
    /\ get2 (phi self') 0 1 = get2 (phi one_hole) 1 1
    /\ get2 (qua self') 1 0 = get2 (qua one_hole) 2 0.
Proof.
  destruct (crop_pixels one_grain one_hole 4 4 1 3 0 2)
    as (self' & Hc & _ & _ & Hpix); try lia.
  - exact one_grain_keeps_shape.
  - repeat split; repeat constructor.
  - exists self'. split; [exact Hc|].
    destruct (Hpix 0 1 ltac:(simpl; lia) ltac:(simpl; lia)) as (Ha & _).
    destruct (Hpix 1 0 ltac:(simpl; lia) ltac:(simpl; lia)) as (_ & _ & Hb & _).
    split; [exact Ha | exact Hb].
Defined.

(** X20: the constructor stores the four fields and the resolution as
    given and, on a rectangular mask, keeps the label of the labelling at
    every pixel whose mask value is not 1 (the labelling is assumed to
    return a field of the shape of the mask). *)
Theorem init_keeps_interior_labels (grain_label : array2 -> float -> array2)
  (phi1_field phi_field qua_field micro_field : array2) (resolution : float)
  (nr nc : nat) :
  keeps_shape grain_label -> shape micro_field nr nc ->
  exists self,
    Aita.__init__ grain_label phi1_field phi_field qua_field micro_field resolution
    = Ok self
    /\ phi1 self = phi1_field /\ phi self = phi_field /\ qua self = qua_field
    /\ micro self = micro_field /\ res self = resolution
    /\ forall r c m,
         get2 micro_field r c = Some m -> (m =? 1)%float = false ->
         get2 (grains self) r c = get2 (grain_label micro_field resolution) r c.
Proof.
  intros Hlabel Hm. unfold Aita.__init__.
  pose proof (Hlabel _ resolution _ _ Hm) as Hl.
  destruct (mask_boundary_total _ _ _ _ Hm Hl) as [g Hg]. rewrite Hg.
  eexists. split; [done|]. simpl. split_and!; try done.
  intros r c m Hget Hne. unfold Aita.mask_boundary in Hg.
  eapply assign_get2_notin; [done|].
  intros (m' & Hm' & H1)%elem_of_np_where. congruence.
Qed.

Lemma init_keeps_interior_labels_witness :
  exists self,
    Aita.__init__ one_grain (phi1 two_grains) (phi two_grains) (qua two_grains)
      (micro two_grains) 1 = Ok self
    /\ get2 (grains self) 0 1 = Some 0%float.
Proof.
  destruct (init_keeps_interior_labels one_grain (phi1 two_grains) (phi two_grains)
              (qua two_grains) (micro two_grains) 1%float 2 2)
    as (self & Hs & _ & _ & _ & _ & _ & Hkeep).
  - exact one_grain_keeps_shape.
  - repeat split; repeat constructor.
  - exists self. split; [exact Hs|]. exact (Hkeep 0 1 0%float eq_refl eq_refl).
Defined.

(** ** The triangle test of [addgrain] *)

Section Triangle.

Lemma add_nan_l (x : float) : (nan + x)%float = nan.
Proof. apply Prim2SF_inj. by rewrite add_spec. Qed.

Lemma add_nan_r (x : float) : (x + nan)%float = nan.
Proof.
  apply Prim2SF_inj. rewrite add_spec. unfold SF64add.
  by destruct (Prim2SF x).
Qed.

Lemma sub_nan_l (x : float) : (nan - x)%float = nan.
Proof. apply Prim2SF_inj. by rewrite sub_spec. Qed.

Lemma sub_nan_r (x : float) : (x - nan)%float = nan.
Proof.
  apply Prim2SF_inj. rewrite sub_spec. unfold SF64sub.
  by destruct (Prim2SF x).
Qed.

Lemma ltb_nan_l (x : float) : (nan <? x)%float = false.
Proof. by rewrite ltb_spec. Qed.

Lemma abs_nan : abs nan = nan.
Proof. reflexivity. Qed.


End Triangle.

Ltac nan_simpl :=
  repeat first
    [ rewrite mul_nan_l | rewrite mul_nan_r | rewrite add_nan_l
    | rewrite add_nan_r | rewrite sub_nan_l | rewrite sub_nan_r
    | rewrite abs_nan ].

(** X21: [isInsideTriangle] answers False as soon as one coordinate of
    the point or of a corner is NaN: the NaN reaches the compared value,
    and NaN compares below nothing. *)
Theorem isInsideTriangle_nan (P p1 p2 p3 : float * float) :
  is_nan P.1 = true \/ is_nan P.2 = true
  \/ is_nan p1.1 = true \/ is_nan p1.2 = true
  \/ is_nan p2.1 = true \/ is_nan p2.2 = true
  \/ is_nan p3.1 = true \/ is_nan p3.2 = true ->
  isInsideTriangle P p1 p2 p3 = false.
Proof.
  destruct P as [x y], p1 as [x1 y1], p2 as [x2 y2], p3 as [x3 y3].
  unfold isInsideTriangle. simpl.
  intros [H|[H|[H|[H|[H|[H|[H|H]]]]]]]; apply is_nan_eq in H; subst;
    nan_simpl; apply ltb_nan_l.
Qed.

Lemma isInsideTriangle_nan_witness :
  isInsideTriangle (nan, 0%float) ((-1)%float, 0%float) (0%float, 1%float)
    (1%float, 0%float) = false.
Proof.
  apply (isInsideTriangle_nan (nan, 0%float)). left. reflexivity.
Defined.


